(** * sshminisig: the compact SSH signature codec

    A shallow embedding of the Go package [sshminisig] (armored SSH
    signature -> one prefix byte + unpadded URL-safe base64) and of the
    parts of the Go standard library it calls ([encoding/binary],
    [encoding/base64]), followed by the properties of the codec.

    Conventions of the embedding:
    - a Go [[]byte] is a [slice]: [None] is the nil slice, [Some l] a
      non-nil slice holding [l];
    - a Go [string] is a [string]; [string(b)] and [[]byte(s)] are the
      two conversions of [Stdlib.Strings.String];
    - integers are [Z]; [int] is 64 bits wide (amd64 / arm64), [uint32]
      32 bits, and the wrap-around of each conversion is written out;
    - a run-time panic (index or slice bound out of range) is the
      outcome [Panic] of the [go] monad, so that "never panics" is a
      statement that can be proved rather than a property of the model;
    - a Go [(value, error)] result is a [result]: the source returns the
      zero value next to every non-nil error. *)

From Stdlib Require Import ZArith List Bool Lia Permutation.
From Stdlib Require Import Strings.String Strings.Ascii Strings.Byte.
Import ListNotations.

Local Open Scope Z_scope.
Local Open Scope list_scope.

(** ** Outcomes: panics and error results *)

Inductive go (A : Type) : Type :=
| Ret (a : A)
| Panic.
Arguments Ret {A} a.
Arguments Panic {A}.

Definition bind {A B : Type} (m : go A) (k : A -> go B) : go B :=
  match m with
  | Ret a => k a
  | Panic => Panic
  end.

Notation "x <- m ;; k" := (bind m (fun x => k))
  (at level 61, m at next level, right associativity).
Notation "' pat <- m ;; k" := (bind m (fun x => match x with pat => k end))
  (at level 61, pat pattern, m at next level, right associativity).

Module base64.
(** [base64.CorruptInputError]: the offset of the offending input byte. *)
Inductive CorruptInputError : Type :=
| CorruptInput (offset : Z).
End base64.

(** The errors the package returns, one constructor per message. *)
Inductive error : Type :=
| ErrTooLarge                              (* "armored signature too large" *)
| ErrInvalidArmor                          (* "invalid armored SSH signature" *)
| ErrMagic                                 (* "invalid magic preamble" *)
| ErrVersion                               (* "invalid signature version" *)
| ErrTruncated                             (* "truncated signature blob" *)
| ErrInvalidSigBlob                        (* "invalid signature blob" *)
| ErrUnsupported (sigAlg hashAlg : string) (* "unsupported algorithm: %q with %q" *)
| ErrTooShort                              (* "sshminisig too short" *)
| ErrUnknownPrefix (c : byte)              (* "unknown prefix: %c" *)
| ErrDecodeSignature (e : base64.CorruptInputError).
                                           (* "failed to decode signature: %w" *)

Inductive result (A : Type) : Type :=
| Ok (a : A)
| Err (e : error).
Arguments Ok {A} a.
Arguments Err {A} e.

(** ** Byte slices and strings *)

Definition slice : Type := option (list byte).

Definition elems (s : slice) : list byte :=
  match s with
  | Some l => l
  | None => []
  end.

Definition is_nil (s : slice) : bool :=
  match s with
  | Some _ => false
  | None => true
  end.

Definition len (s : slice) : Z := Z.of_nat (List.length (elems s)).

(** [s[lo:]].  Slicing nil at 0 gives nil; a bound out of range panics. *)
Definition slice_from (s : slice) (lo : Z) : go slice :=
  if (lo <? 0) || (len s <? lo) then Panic
  else Ret (option_map (skipn (Z.to_nat lo)) s).

(** [s[:hi]].  Go checks [hi] against the capacity; the embedding checks it
    against the length, so it panics at least wherever Go does. *)
Definition slice_to (s : slice) (hi : Z) : go slice :=
  if (hi <? 0) || (len s <? hi) then Panic
  else Ret (option_map (firstn (Z.to_nat hi)) s).

(** [append(s, t...)]: the contents of [s] followed by those of [t].  In
    [parseSignatureBlob] the appended bytes already follow [s] in the same
    backing array, so the in-place write leaves the array as it is. *)
Definition append (s t : slice) : slice :=
  match s, elems t with
  | None, [] => None
  | _, l => Some (elems s ++ l)
  end.

(** [string(b)] *)
Definition to_string (s : slice) : string := string_of_list_byte (elems s).

Definition u8 (b : byte) : Z := Z.of_N (Byte.to_N b).

(** [byte(z)]: the low eight bits. *)
Definition to_byte (z : Z) : byte :=
  match Byte.of_N (Z.to_N (z mod 256)) with
  | Some b => b
  | None => x00
  end.

(** [int(n)] on a 64-bit target. *)
Definition int (n : Z) : Z := (n + 2 ^ 63) mod 2 ^ 64 - 2 ^ 63.

(** [len(s)], [s[i]] and [s[lo:]] on a Go string. *)
Definition strlen (s : string) : Z := Z.of_nat (List.length (list_byte_of_string s)).

Definition str_index (s : string) (i : Z) : go byte :=
  if (i <? 0) || (strlen s <=? i) then Panic
  else match nth_error (list_byte_of_string s) (Z.to_nat i) with
       | Some c => Ret c
       | None => Panic
       end.

Definition str_from (s : string) (lo : Z) : go string :=
  if (lo <? 0) || (strlen s <? lo) then Panic
  else Ret (string_of_list_byte (skipn (Z.to_nat lo) (list_byte_of_string s))).

(** [string(c)] for a byte [c]: the UTF-8 encoding of the code point [c]. *)
Definition string_of_rune (c : byte) : string :=
  if u8 c <? 128 then string_of_list_byte [c]
  else string_of_list_byte
         [to_byte (Z.lor 192 (Z.shiftr (u8 c) 6)); to_byte (Z.lor 128 (Z.land (u8 c) 63))].

(** ** encoding/binary *)

Module binary.
(** [uint32(x) << k] *)
Definition shl32 (x k : Z) : Z := Z.shiftl x k mod 2 ^ 32.

(** [binary.BigEndian.Uint32(b)]; its first statement [_ = b[3]] panics on
    a slice shorter than four bytes. *)
Definition Uint32 (b : slice) : go Z :=
  match elems b with
  | b0 :: b1 :: b2 :: b3 :: _ =>
      Ret (Z.lor (Z.lor (Z.lor (u8 b3) (shl32 (u8 b2) 8)) (shl32 (u8 b1) 16))
                 (shl32 (u8 b0) 24))
  | _ => Panic
  end.
End binary.

(** ** encoding/base64, [RawURLEncoding]

    The URL-safe alphabet, no padding, non-strict decoding.  The decoder is
    [Encoding.Decode] restricted to its general path ([decodeQuantum]); the
    8- and 4-character fast paths of the library fall back to it on any
    character outside the alphabet and compute the same bytes otherwise. *)

Module RawURLEncoding.
Import base64.

Definition encodeURL : string :=
  "ABCDEFGHIJKLMNOPQRSTUVWXYZabcdefghijklmnopqrstuvwxyz0123456789-_".

(** [enc.encode[i]] *)
Definition encode (i : Z) : byte :=
  nth (Z.to_nat i) (list_byte_of_string encodeURL) x00.

Fixpoint index_of (c : byte) (l : list byte) (i : Z) : option Z :=
  match l with
  | [] => None
  | x :: l' => if Byte.eqb x c then Some i else index_of c l' (i + 1)
  end.

(** [enc.decodeMap[c]]: 0xff everywhere, then the index of each alphabet
    character. *)
Definition decodeMap (c : byte) : Z :=
  match index_of c (list_byte_of_string encodeURL) 0 with
  | Some i => i
  | None => 255
  end.

(** [Encoding.Encode]: full 3-byte groups, then the 1- or 2-byte remainder
    without padding characters. *)
Fixpoint Encode (src : list byte) : list byte :=
  match src with
  | s0 :: s1 :: s2 :: rest =>
      let val := Z.lor (Z.lor (Z.shiftl (u8 s0) 16) (Z.shiftl (u8 s1) 8)) (u8 s2) in
      encode (Z.land (Z.shiftr val 18) 63)
        :: encode (Z.land (Z.shiftr val 12) 63)
        :: encode (Z.land (Z.shiftr val 6) 63)
        :: encode (Z.land val 63)
        :: Encode rest
  | [s0; s1] =>
      let val := Z.lor (Z.shiftl (u8 s0) 16) (Z.shiftl (u8 s1) 8) in
      [encode (Z.land (Z.shiftr val 18) 63);
       encode (Z.land (Z.shiftr val 12) 63);
       encode (Z.land (Z.shiftr val 6) 63)]
  | [s0] =>
      let val := Z.shiftl (u8 s0) 16 in
      [encode (Z.land (Z.shiftr val 18) 63);
       encode (Z.land (Z.shiftr val 12) 63)]
  | [] => []
  end.

Definition EncodeToString (src : slice) : string :=
  string_of_list_byte (Encode (elems src)).

(** The end of [decodeQuantum]: the sextets gathered in [dbuf] are packed
    into [val] and the first [dlen - 1] of its three bytes are written. *)
Definition quantum (dbuf : list Z) : list byte :=
  let val := Z.lor (Z.lor (Z.lor (Z.shiftl (nth 0 dbuf 0) 18) (Z.shiftl (nth 1 dbuf 0) 12))
                          (Z.shiftl (nth 2 dbuf 0) 6))
                   (nth 3 dbuf 0) in
  firstn (List.length dbuf - 1)
         [to_byte (Z.shiftr val 16); to_byte (Z.shiftr val 8); to_byte (Z.shiftr val 0)].

Definition prepend (l : list byte) (r : CorruptInputError + list byte)
  : CorruptInputError + list byte :=
  match r with
  | inr l' => inr (l ++ l')
  | inl e => inl e
  end.

(** [Encoding.Decode]: [src] is the input from offset [si] on and [dbuf] the
    sextets of the quantum being read ([j = length dbuf]).  Characters
    outside the alphabet are an error at their offset, except CR and LF,
    which are skipped; at the end of the input an empty quantum is fine, a
    single sextet is an error, and two or three give one or two bytes. *)
Fixpoint decode (src : list byte) (si : Z) (dbuf : list Z)
  : CorruptInputError + list byte :=
  match src with
  | [] =>
      match dbuf with
      | [] => inr []
      | [_] => inl (CorruptInput (si - 1))
      | _ => inr (quantum dbuf)
      end
  | c :: src' =>
      let out := decodeMap c in
      if negb (out =? 255) then
        let dbuf' := dbuf ++ [out] in
        if (List.length dbuf' =? 4)%nat
        then prepend (quantum dbuf') (decode src' (si + 1) [])
        else decode src' (si + 1) dbuf'
      else if Byte.eqb c "010"%byte || Byte.eqb c "013"%byte
           then decode src' (si + 1) dbuf
           else inl (CorruptInput si)
  end.

(** [Encoding.DecodeString].  The library also hands back the bytes decoded
    before an error; [Decode] below drops them. *)
Definition DecodeString (s : string) : CorruptInputError + slice :=
  match decode (list_byte_of_string s) 0 [] with
  | inr l => inr (Some l)
  | inl e => inl e
  end.
End RawURLEncoding.

(** ** Package sshminisig: the algorithm registry *)

Definition SigAlg : Type := string.
Definition HashAlg : Type := string.
Bind Scope string_scope with SigAlg HashAlg.

Definition SigEd25519 : SigAlg := "ssh-ed25519".
Definition SigRSA256 : SigAlg := "rsa-sha2-256".
Definition SigRSA512 : SigAlg := "rsa-sha2-512".
Definition SigECDSAP256 : SigAlg := "ecdsa-sha2-nistp256".
Definition SigECDSAP384 : SigAlg := "ecdsa-sha2-nistp384".
Definition SigECDSAP521 : SigAlg := "ecdsa-sha2-nistp521".
Definition SigSKEd25519 : SigAlg := "sk-ssh-ed25519@openssh.com".
Definition SigSKECDSA : SigAlg := "sk-ecdsa-sha2-nistp256@openssh.com".
Definition SigLegacyRSA : SigAlg := "ssh-rsa".

Definition HashSHA256 : HashAlg := "sha256".
Definition HashSHA512 : HashAlg := "sha512".

Record Algs : Type := mkAlgs { Sig : SigAlg; Hash : HashAlg }.

(** The zero value [Algs{}]. *)
Definition zeroAlgs : Algs := mkAlgs "" "".

Definition Algs_eqb (a b : Algs) : bool :=
  String.eqb (Sig a) (Sig b) && String.eqb (Hash a) (Hash b).

Definition PrefixEd25519 : byte := "e".
Definition PrefixRSA256 : byte := "r".
Definition PrefixRSA512 : byte := "s".
Definition PrefixECDSAP256 : byte := "c".
Definition PrefixECDSAP384 : byte := "d".
Definition PrefixECDSAP521 : byte := "p".
Definition PrefixSKEd25519 : byte := "f".
Definition PrefixSKECDSA : byte := "g".
Definition PrefixLegacyRSA256 : byte := "2".
Definition PrefixLegacyRSA512 : byte := "5".
Definition PrefixReserved : byte := "z".

(** The map literal [algsToPrefix], as the list of its rows. *)
Definition algsToPrefix : list (Algs * byte) :=
  [ (mkAlgs SigEd25519 HashSHA512, PrefixEd25519);
    (mkAlgs SigRSA256 HashSHA256, PrefixRSA256);
    (mkAlgs SigRSA512 HashSHA512, PrefixRSA512);
    (mkAlgs SigECDSAP256 HashSHA512, PrefixECDSAP256);
    (mkAlgs SigECDSAP384 HashSHA512, PrefixECDSAP384);
    (mkAlgs SigECDSAP521 HashSHA512, PrefixECDSAP521);
    (mkAlgs SigSKEd25519 HashSHA512, PrefixSKEd25519);
    (mkAlgs SigSKECDSA HashSHA256, PrefixSKECDSA);
    (mkAlgs SigLegacyRSA HashSHA256, PrefixLegacyRSA256);
    (mkAlgs SigLegacyRSA HashSHA512, PrefixLegacyRSA512) ].

(** [m[k]] with the comma-ok result. *)
Fixpoint map_lookup (m : list (Algs * byte)) (k : Algs) : option byte :=
  match m with
  | [] => None
  | (k', v) :: m' => if Algs_eqb k' k then Some v else map_lookup m' k
  end.

(** A [[256]Algs] array: a list of 256 entries, read and written by index. *)
Definition table : Type := list Algs.

Definition array_get (t : table) (i : byte) : go Algs :=
  match nth_error t (Z.to_nat (u8 i)) with
  | Some a => Ret a
  | None => Panic
  end.

Definition array_set (t : table) (i : byte) (v : Algs) : go table :=
  if (Z.to_nat (u8 i) <? List.length t)%nat
  then Ret (firstn (Z.to_nat (u8 i)) t ++ v :: skipn (S (Z.to_nat (u8 i))) t)
  else Panic.

(** The body of [init]: [for algs, prefix := range m { t[prefix] = algs }],
    over the rows of the map in the order [m] lists them. *)
Fixpoint init_range (m : list (Algs * byte)) (t : table) : go table :=
  match m with
  | [] => Ret t
  | (algs, prefix) :: m' => t' <- array_set t prefix algs ;; init_range m' t'
  end.

Definition zeroTable : table := repeat zeroAlgs 256.

Definition init : go table := init_range algsToPrefix zeroTable.

(** The package variable [PrefixToAlgs] once [init] has run. *)
Definition PrefixToAlgs : table :=
  match init with
  | Ret t => t
  | Panic => zeroTable
  end.

Definition maxArmoredSize : Z := 8 * 1024.

(** ** The blob parser *)

(** [readString]: a uint32 length prefix, then that many bytes.  A failed
    read is the pair of nil slices. *)
Definition readString (b : slice) : go (slice * slice) :=
  if len b <? 4 then Ret (None, None)
  else
    n <- binary.Uint32 b ;;
    b <- slice_from b 4 ;;
    if len b <? int n then Ret (None, None)
    else
      data <- slice_to b n ;;
      rest <- slice_from b n ;;
      Ret (data, rest).

(** [for range k { _, b = readString(b) }] *)
Fixpoint skipStrings (k : nat) (b : slice) : go slice :=
  match k with
  | O => Ret b
  | S k' => '(_, b) <- readString b ;; skipStrings k' b
  end.

Definition parseSignatureBlob (blob : slice) : go (result (string * string * slice)) :=
  let b := blob in
  (* Verify magic preamble *)
  bad <- (if len b <? 6 then Ret true
          else m <- slice_to b 6 ;; Ret (negb (String.eqb (to_string m) "SSHSIG"))) ;;
  if bad : bool then Ret (Err ErrMagic)
  else
    b <- slice_from b 6 ;;
    (* Verify version *)
    bad <- (if len b <? 4 then Ret true
            else v <- slice_to b 4 ;; n <- binary.Uint32 v ;; Ret (negb (n =? 1))) ;;
    if bad : bool then Ret (Err ErrVersion)
    else
      b <- slice_from b 4 ;;
      (* Skip past public key, namespace, reserved *)
      b <- skipStrings 3 b ;;
      if is_nil b then Ret (Err ErrTruncated)
      else
        (* Read hash algorithm and signature blob *)
        '(hashAlg, b) <- readString b ;;
        '(sigBlob, _) <- readString b ;;
        if is_nil sigBlob then Ret (Err ErrInvalidSigBlob)
        else
          (* Parse signature blob: algorithm + data + optional trailing data *)
          '(sigAlg, sigBlob) <- readString sigBlob ;;
          '(sigData, sigBlob) <- readString sigBlob ;;
          if is_nil sigData then Ret (Err ErrInvalidSigBlob)
          else
            (* Append any remaining data (e.g., SK flags and counter) *)
            let sigData := if 0 <? len sigBlob then append sigData sigBlob else sigData in
            Ret (Ok (to_string sigAlg, to_string hashAlg, sigData)).

(** ** The codec *)

(** A [*pem.Block] as far as [Encode] looks at it. *)
Record Block : Type := mkBlock { Type_ : string; Bytes : slice }.

Section Codec.
(** [pem.Decode] of the standard library, with the rest of the input it
    also returns dropped; [None] is the nil block. *)
Variable pem_Decode : slice -> option Block.

Definition Encode (armored : slice) : go (result string) :=
  if maxArmoredSize <? len armored then Ret (Err ErrTooLarge)
  else
    match pem_Decode armored with
    | None => Ret (Err ErrInvalidArmor)
    | Some block =>
        if negb (String.eqb (Type_ block) "SSH SIGNATURE") then Ret (Err ErrInvalidArmor)
        else
          r <- parseSignatureBlob (Bytes block) ;;
          match r with
          | Err e => Ret (Err e)
          | Ok (sigAlg, hashAlg, sigData) =>
              match map_lookup algsToPrefix (mkAlgs sigAlg hashAlg) with
              | None => Ret (Err (ErrUnsupported sigAlg hashAlg))
              | Some prefix =>
                  Ret (Ok (String.append (string_of_rune prefix)
                                         (RawURLEncoding.EncodeToString sigData)))
              end
          end
    end.
End Codec.

Definition Decode (minisig : string) : go (result (Algs * slice)) :=
  if strlen minisig <? 2 then Ret (Err ErrTooShort)
  else
    c <- str_index minisig 0 ;;
    algs <- array_get PrefixToAlgs c ;;
    if String.eqb (Sig algs) "" then Ret (Err (ErrUnknownPrefix c))
    else
      rest <- str_from minisig 1 ;;
      match RawURLEncoding.DecodeString rest with
      | inl e => Ret (Err (ErrDecodeSignature e))
      | inr sigBytes => Ret (Ok (algs, sigBytes))
      end.

(** ** The wire format, as a writer

    The layout [parseSignatureBlob] reads, built from its fields.  The
    package has no writer (ssh-keygen produces the blobs); this one states
    which payloads the properties below are about. *)

Definition PutUint32 (n : Z) : list byte :=
  [to_byte (Z.shiftr n 24); to_byte (Z.shiftr n 16); to_byte (Z.shiftr n 8); to_byte n].

Definition sshString (d : list byte) : list byte :=
  PutUint32 (Z.of_nat (List.length d)) ++ d.

Definition magic : list byte := list_byte_of_string "SSHSIG".

Definition sigBlobOf (sigAlg sigData trailer : list byte) : list byte :=
  sshString sigAlg ++ sshString sigData ++ trailer.

Definition payload (pk ns rsv hashAlg sigBlob : list byte) : list byte :=
  magic ++ PutUint32 1 ++ sshString pk ++ sshString ns ++ sshString rsv
        ++ sshString hashAlg ++ sshString sigBlob.

(** [[]byte(s)] *)
Definition bs (s : string) : list byte := list_byte_of_string s.

(** ** Command sshminisig

    [run] and [main] of [cmd/sshminisig].  The outcome of
    [io.ReadAll(os.Stdin)] is an argument: the bytes read, or a read error
    of some type [E].  [run] returns what it printed on standard output next
    to its error; [main] adds the error it reports on standard error and the
    exit status. *)

Inductive run_error (E : Type) : Type :=
| ErrReadingStdin (e : E)        (* "reading stdin: %w" *)
| ErrEncode (e : error).
Arguments ErrReadingStdin {E} e.
Arguments ErrEncode {E} e.

Definition run {E : Type} (pem_Decode : slice -> option Block) (ReadAll : E + slice)
  : go (string * option (run_error E)) :=
  match ReadAll with
  | inl e => Ret (EmptyString, Some (ErrReadingStdin e))
  | inr input =>
      r <- Encode pem_Decode input ;;
      match r with
      | Err e => Ret (EmptyString, Some (ErrEncode e))
      | Ok minisig => Ret (minisig, None)
      end
  end.

Definition main {E : Type} (pem_Decode : slice -> option Block) (ReadAll : E + slice)
  : go (string * option (run_error E) * Z) :=
  '(stdout, err) <- run pem_Decode ReadAll ;;
  match err with
  | Some e => Ret (stdout, Some e, 1)
  | None => Ret (stdout, None, 0)
  end.

(** * Definitions for the specification

    Auxiliary definitions the properties are stated with: arithmetic
    readings of the bit operations, the parser past its header, the
    reverse-lookup specification, sample envelopes, and proof tactics. *)

(** The value of four bytes read as a big-endian number. *)
Definition be32 (b0 b1 b2 b3 : byte) : Z :=
  u8 b0 * 2 ^ 24 + u8 b1 * 2 ^ 16 + u8 b2 * 2 ^ 8 + u8 b3.

(** Turn the powers of two of the code into numerals, for [lia]. *)
Ltac pow2_consts :=
  change (2 ^ 6) with 64 in *; change (2 ^ 8) with 256 in *;
  change (2 ^ 12) with 4096 in *; change (2 ^ 16) with 65536 in *;
  change (2 ^ 18) with 262144 in *; change (2 ^ 24) with 16777216 in *;
  change (2 ^ 32) with 4294967296 in *.

(** The parser from the three skipped fields on: what [parseSignatureBlob]
    does once the magic preamble and the version have been accepted. *)
Definition afterHeader (b : slice) : go (result (string * string * slice)) :=
  b <- skipStrings 3 b ;;
  if is_nil b then Ret (Err ErrTruncated)
  else
    '(hashAlg, b) <- readString b ;;
    '(sigBlob, _) <- readString b ;;
    if is_nil sigBlob then Ret (Err ErrInvalidSigBlob)
    else
      '(sigAlg, sigBlob) <- readString sigBlob ;;
      '(sigData, sigBlob) <- readString sigBlob ;;
      if is_nil sigData then Ret (Err ErrInvalidSigBlob)
      else
        let sigData := if 0 <? len sigBlob then append sigData sigBlob else sigData in
        Ret (Ok (to_string sigAlg, to_string hashAlg, sigData)).

(** A field fits its uint32 length prefix. *)
Definition fits (d : list byte) : Prop := Z.of_nat (List.length d) < 2 ^ 32.

(** One [readString] in a hypothesis [H] that says the parser succeeded:
    the read cannot have failed, so the buffer splits ([cases] is the case
    lemma of [readString]). *)
Ltac read_field cases H b d r :=
  let E := fresh "E" in
  let Hb := fresh "Hb" in
  let Hf := fresh "Hf" in
  destruct (cases b) as [E|(d & r & E & Hb & Hf)];
  rewrite E in H; cbn [bind is_nil] in H;
  [ cbn in H; discriminate | cbn [elems] in Hb ].

(** The six bits of [v] from bit [k] on: [v >> k & 0x3F]. *)
Definition sextet (v k : Z) : Z := Z.land (Z.shiftr v k) 63.

(** Four sextets put together, as [decodeQuantum] does. *)
Definition pack (d0 d1 d2 d3 : Z) : Z :=
  Z.lor (Z.lor (Z.lor (Z.shiftl d0 18) (Z.shiftl d1 12)) (Z.shiftl d2 6)) d3.

(** The three input bytes packed into one 24-bit value. *)
Definition val3 (a b c : byte) : Z := u8 a * 65536 + u8 b * 256 + u8 c.

(** The specification of the reverse lookup: the row of the table that
    carries the prefix byte, if there is one. *)
Fixpoint row_of (m : list (Algs * byte)) (c : byte) : option Algs :=
  match m with
  | [] => None
  | (k, v) :: m' => if Byte.eqb v c then Some k else row_of m' c
  end.

(** Sample data: an ed25519 envelope with the three signature bytes 1, 2, 3,
    one with an empty signature, and unwrappers standing for [pem.Decode]
    on their armored forms. *)
Definition sample_sig : list byte := [x01; x02; x03].

Definition sample_payload (sig : list byte) : list byte :=
  payload (bs "key") (bs "file") [] (bs "sha512") (sigBlobOf (bs "ssh-ed25519") sig []).

Definition sample_block (sig : list byte) : Block :=
  mkBlock "SSH SIGNATURE" (Some (sample_payload sig)).

Definition sample_unwrap (sig : list byte) : slice -> option Block :=
  fun _ => Some (sample_block sig).

Definition sample_armored : slice := Some (bs "-----BEGIN SSH SIGNATURE-----").

(** A security-key signature blob: algorithm name, signature data, then a
    flags byte and a four-byte counter. *)
Definition sample_sk_trailer : list byte := [x01; x00; x00; x00; x2a].

Definition sample_sk_sigBlob : list byte :=
  sigBlobOf (bs "sk-ssh-ed25519@openssh.com") sample_sig sample_sk_trailer.

(** The offset at which the three skipped fields end. *)
Definition skipped_end (pk ns rsv : list byte) : nat :=
  10 + List.length (sshString pk) + List.length (sshString ns) + List.length (sshString rsv).

(** The error the parser reports on a payload cut after [m] bytes, inside
    the fields up to the signature blob. *)
Definition truncation_error (pk ns rsv : list byte) (m : nat) : error :=
  if (m <? 6)%nat then ErrMagic
  else if (m <? 10)%nat then ErrVersion
  else if (m <? skipped_end pk ns rsv)%nat then ErrTruncated
  else ErrInvalidSigBlob.

(** One field of a cut payload: either the cut is past the field, which is
    then read whole, or it is inside and the read fails ([cut] is the lemma
    on reading a cut buffer). *)
Ltac cut_field cut Hfit E p' E' Hr Hlen :=
  let Ep := fresh "Ep" in
  destruct (cut _ _ _ _ Hfit E) as [(p' & Ep & E' & Hr)|[Hlen Hr]];
  [ symmetry in E'; subst | ].

(** [skipped_differ k b b']: the buffers [b] and [b'], each starting at the
    first of [k] length-prefixed fields still to be skipped, are the same
    except for the data bytes of those fields.  The length prefixes are
    shared, so every field has the same declared length on both sides; a
    field whose declared length runs past the end of the buffer has the
    bytes that are there as its data. *)
Inductive skipped_differ : nat -> list byte -> list byte -> Prop :=
| sd_same (k : nat) (b : list byte) : skipped_differ k b b
| sd_field (k : nat) (n : Z) (d d' r r' : list byte) :
    0 <= n < 2 ^ 32 ->
    Z.of_nat (List.length d) = n -> Z.of_nat (List.length d') = n ->
    skipped_differ k r r' ->
    skipped_differ (S k) (PutUint32 n ++ d ++ r) (PutUint32 n ++ d' ++ r')
| sd_short (k : nat) (n : Z) (d d' : list byte) :
    0 <= n < 2 ^ 32 ->
    Z.of_nat (List.length d) < n -> List.length d' = List.length d ->
    skipped_differ (S k) (PutUint32 n ++ d) (PutUint32 n ++ d').

(** The hash algorithm and signature blob fields of the sample payload. *)
Definition sample_tail : list byte :=
  sshString (bs "sha512") ++ sshString (sigBlobOf (bs "ssh-ed25519") sample_sig []).

(** The table [t] with entry [n] replaced by [v]. *)
Definition set_at (t : table) (n : nat) (v : Algs) : table :=
  firstn n t ++ v :: skipn (S n) t.

(** The 64 characters of the URL-safe alphabet. *)
Definition alphabet : list byte := list_byte_of_string RawURLEncoding.encodeURL.

(** The two characters the base64 decoder skips: LF and CR. *)
Definition skipped_char (c : byte) : bool :=
  Byte.eqb c "010"%byte || Byte.eqb c "013"%byte.

(** A character a token cannot hold after its prefix: outside the alphabet
    and not skipped (the padding [=], and [+] and [/] of the standard
    alphabet, among others). *)
Definition foreign (c : byte) : bool :=
  negb (existsb (Byte.eqb c) alphabet) && negb (skipped_char c).

(** * Properties *)

(** ** Bytes and bit arithmetic *)

Lemma u8_range (b : byte) : 0 <= u8 b < 256.
Proof.
  unfold u8. pose proof (Byte.to_N_bounded b). lia.
Qed.

Lemma to_byte_u8 (b : byte) : to_byte (u8 b) = b.
Proof.
  unfold to_byte. pose proof (u8_range b) as Hb.
  rewrite Z.mod_small by exact Hb.
  unfold u8. rewrite N2Z.id, Byte.of_to_N. reflexivity.
Qed.

Lemma u8_to_byte (z : Z) : u8 (to_byte z) = z mod 256.
Proof.
  unfold to_byte, u8.
  assert (Hm : 0 <= z mod 256 < 256) by (apply Z.mod_pos_bound; lia).
  destruct (Byte.of_N (Z.to_N (z mod 256))) as [b|] eqn:E.
  - apply Byte.to_of_N in E. rewrite E. lia.
  - apply Byte.of_N_None_iff in E. lia.
Qed.

Lemma to_byte_inj (x y : Z) :
  0 <= x < 256 -> 0 <= y < 256 -> to_byte x = to_byte y -> x = y.
Proof.
  intros Hx Hy E. apply (f_equal u8) in E. rewrite !u8_to_byte in E.
  rewrite !Z.mod_small in E by assumption. exact E.
Qed.

Lemma land_shiftl_low (hi lo k : Z) :
  0 <= k -> 0 <= lo < 2 ^ k -> Z.land (Z.shiftl hi k) lo = 0.
Proof.
  intros Hk Hlo.
  destruct (Z.eq_dec lo 0) as [->|Hnz]; [apply Z.land_0_r|].
  apply Z.bits_inj'. intros n Hn.
  rewrite Z.land_spec, Z.bits_0.
  destruct (Z.lt_ge_cases n k) as [Hlt|Hge].
  - rewrite Z.shiftl_spec_low by assumption. reflexivity.
  - rewrite (Z.bits_above_log2 lo n); [apply andb_false_r | lia |].
    apply Z.log2_lt_pow2; [lia|].
    apply Z.lt_le_trans with (2 ^ k); [lia|].
    apply Z.pow_le_mono_r; lia.
Qed.

Lemma lor_shiftl_add (hi lo k : Z) :
  0 <= k -> 0 <= lo < 2 ^ k -> Z.lor (Z.shiftl hi k) lo = hi * 2 ^ k + lo.
Proof.
  intros Hk Hlo.
  rewrite <- Z.lxor_lor by (apply land_shiftl_low; assumption).
  rewrite <- Z.add_nocarry_lxor by (apply land_shiftl_low; assumption).
  rewrite Z.shiftl_mul_pow2 by assumption. reflexivity.
Qed.

Lemma lor_add_shiftl (hi lo k : Z) :
  0 <= k -> 0 <= lo < 2 ^ k -> Z.lor lo (Z.shiftl hi k) = hi * 2 ^ k + lo.
Proof.
  intros. rewrite Z.lor_comm. apply lor_shiftl_add; assumption.
Qed.

(** ** encoding/binary *)

Lemma shl32_small (x k : Z) :
  0 <= k -> 0 <= x -> x * 2 ^ k < 2 ^ 32 -> binary.shl32 x k = x * 2 ^ k.
Proof.
  intros Hk Hx Hlt. unfold binary.shl32.
  rewrite Z.shiftl_mul_pow2 by assumption.
  apply Z.mod_small. split; [|assumption].
  apply Z.mul_nonneg_nonneg; [assumption|]. apply Z.pow_nonneg. lia.
Qed.

Lemma be32_range (b0 b1 b2 b3 : byte) : 0 <= be32 b0 b1 b2 b3 < 2 ^ 32.
Proof.
  unfold be32.
  pose proof (u8_range b0). pose proof (u8_range b1).
  pose proof (u8_range b2). pose proof (u8_range b3). lia.
Qed.

Lemma Uint32_cons4 (b0 b1 b2 b3 : byte) (r : list byte) :
  binary.Uint32 (Some (b0 :: b1 :: b2 :: b3 :: r)) = Ret (be32 b0 b1 b2 b3).
Proof.
  unfold binary.Uint32, be32. cbn [elems]. f_equal.
  pose proof (u8_range b0). pose proof (u8_range b1).
  pose proof (u8_range b2). pose proof (u8_range b3).
  rewrite (shl32_small (u8 b2) 8), (shl32_small (u8 b1) 16), (shl32_small (u8 b0) 24)
    by (change (2 ^ 32) with 4294967296; change (2 ^ 8) with 256;
        change (2 ^ 16) with 65536; change (2 ^ 24) with 16777216; lia).
  rewrite <- !Z.shiftl_mul_pow2 by lia.
  rewrite (lor_add_shiftl (u8 b2) (u8 b3) 8) by lia.
  rewrite (Z.lor_comm _ (Z.shiftl (u8 b1) 16)), lor_shiftl_add by lia.
  rewrite (Z.lor_comm _ (Z.shiftl (u8 b0) 24)), lor_shiftl_add by lia.
  rewrite !Z.shiftl_mul_pow2 by lia. lia.
Qed.

Lemma to_byte_eq (z : Z) (b : byte) : z mod 256 = u8 b -> to_byte z = b.
Proof.
  intros E. rewrite <- (to_byte_u8 b). unfold to_byte.
  rewrite E, (Z.mod_small (u8 b)) by apply u8_range. reflexivity.
Qed.

Lemma PutUint32_be32 (b0 b1 b2 b3 : byte) :
  PutUint32 (be32 b0 b1 b2 b3) = [b0; b1; b2; b3].
Proof.
  unfold PutUint32, be32.
  pose proof (u8_range b0). pose proof (u8_range b1).
  pose proof (u8_range b2). pose proof (u8_range b3).
  rewrite !Z.shiftr_div_pow2 by lia.
  repeat (f_equal; try (apply to_byte_eq; pow2_consts; Z.div_mod_to_equations; lia)).
Qed.

Lemma be32_PutUint32 (n : Z) :
  0 <= n < 2 ^ 32 ->
  exists b0 b1 b2 b3, PutUint32 n = [b0; b1; b2; b3] /\ be32 b0 b1 b2 b3 = n.
Proof.
  intros Hn. unfold PutUint32.
  do 4 eexists. split; [reflexivity|].
  unfold be32. rewrite !u8_to_byte, !Z.shiftr_div_pow2 by lia.
  pow2_consts. Z.div_mod_to_equations. lia.
Qed.

(** ** The length-prefixed read *)

Lemma int_uint32 (n : Z) : 0 <= n < 2 ^ 32 -> int n = n.
Proof.
  intros Hn. unfold int. pow2_consts.
  change (2 ^ 63) with 9223372036854775808.
  change (2 ^ 64) with 18446744073709551616.
  rewrite Z.mod_small by lia. lia.
Qed.

Lemma len_Some (l : list byte) : len (Some l) = Z.of_nat (List.length l).
Proof. reflexivity. Qed.

Lemma readString_short (b : slice) : len b < 4 -> readString b = Ret (None, None).
Proof.
  intros H. unfold readString.
  destruct (Z.ltb_spec (len b) 4); [reflexivity | lia].
Qed.

Lemma readString_nil : readString None = Ret (None, None).
Proof. reflexivity. Qed.

(** What [readString] computes on a buffer of four bytes or more. *)
Lemma readString_cons4 (b0 b1 b2 b3 : byte) (r : list byte) :
  readString (Some (b0 :: b1 :: b2 :: b3 :: r)) =
  if Z.of_nat (List.length r) <? be32 b0 b1 b2 b3 then Ret (None, None)
  else Ret (Some (firstn (Z.to_nat (be32 b0 b1 b2 b3)) r),
            Some (skipn (Z.to_nat (be32 b0 b1 b2 b3)) r)).
Proof.
  pose proof (be32_range b0 b1 b2 b3) as Hn.
  unfold readString.
  replace (len (Some (b0 :: b1 :: b2 :: b3 :: r)) <? 4) with false
    by (symmetry; apply Z.ltb_ge; rewrite len_Some; cbn [List.length]; lia).
  rewrite Uint32_cons4. cbn [bind].
  unfold slice_from at 1.
  replace ((4 <? 0) || (len (Some (b0 :: b1 :: b2 :: b3 :: r)) <? 4)) with false
    by (symmetry; apply orb_false_iff; split; apply Z.ltb_ge;
        [lia | rewrite len_Some; cbn [List.length]; lia]).
  cbn [bind option_map]. change (skipn (Z.to_nat 4) (b0 :: b1 :: b2 :: b3 :: r)) with r.
  rewrite int_uint32 by exact Hn. rewrite len_Some.
  destruct (Z.ltb_spec (Z.of_nat (List.length r)) (be32 b0 b1 b2 b3)) as [Hlt|Hge];
    [reflexivity|].
  unfold slice_to, slice_from. rewrite len_Some.
  replace ((be32 b0 b1 b2 b3 <? 0) || (Z.of_nat (List.length r) <? be32 b0 b1 b2 b3))
    with false by (symmetry; apply orb_false_iff; split; apply Z.ltb_ge; lia).
  reflexivity.
Qed.

Lemma readString_hdr (n : Z) (x : list byte) :
  0 <= n < 2 ^ 32 ->
  readString (Some (PutUint32 n ++ x)) =
  if Z.of_nat (List.length x) <? n then Ret (None, None)
  else Ret (Some (firstn (Z.to_nat n) x), Some (skipn (Z.to_nat n) x)).
Proof.
  intros Hn. destruct (be32_PutUint32 n Hn) as (b0 & b1 & b2 & b3 & E & V).
  rewrite E. cbn [app]. rewrite readString_cons4, V. reflexivity.
Qed.

Lemma readString_sshString (d r : list byte) :
  Z.of_nat (List.length d) < 2 ^ 32 ->
  readString (Some (sshString d ++ r)) = Ret (Some d, Some r).
Proof.
  intros Hd. unfold sshString. rewrite <- app_assoc.
  rewrite readString_hdr by lia.
  rewrite length_app, Nat2Z.inj_add.
  destruct (Z.ltb_spec (Z.of_nat (List.length d) + Z.of_nat (List.length r))
                       (Z.of_nat (List.length d))); [lia|].
  rewrite Nat2Z.id, firstn_app, skipn_app, Nat.sub_diag, firstn_all, skipn_all.
  cbn [firstn skipn app]. rewrite app_nil_r. reflexivity.
Qed.

(** [readString] never panics; it fails with the nil pair or splits the
    buffer into the length prefix, the data and the rest. *)
Lemma readString_cases (b : slice) :
  readString b = Ret (None, None) \/
  exists d r, readString b = Ret (Some d, Some r) /\
              elems b = sshString d ++ r /\ Z.of_nat (List.length d) < 2 ^ 32.
Proof.
  destruct b as [[|b0 [|b1 [|b2 [|b3 r]]]]|];
    try (left; apply readString_short; rewrite ?len_Some; cbn; lia).
  pose proof (be32_range b0 b1 b2 b3) as Hn.
  rewrite readString_cons4.
  destruct (Z.ltb_spec (Z.of_nat (List.length r)) (be32 b0 b1 b2 b3)) as [Hlt|Hge];
    [left; reflexivity|].
  right. do 2 eexists. split; [reflexivity|].
  assert (HL : List.length (firstn (Z.to_nat (be32 b0 b1 b2 b3)) r)
               = Z.to_nat (be32 b0 b1 b2 b3))
    by (apply firstn_length_le; lia).
  split.
  - unfold sshString. rewrite HL, Z2Nat.id, PutUint32_be32 by lia.
    cbn [app elems]. rewrite firstn_skipn. reflexivity.
  - rewrite HL. lia.
Qed.

Lemma readString_no_panic (b : slice) : exists r, readString b = Ret r.
Proof.
  destruct (readString_cases b) as [E|(d & r & E & _)]; rewrite E; eauto.
Qed.

Lemma sshString_length (d : list byte) :
  List.length (sshString d) = (4 + List.length d)%nat.
Proof. unfold sshString. rewrite length_app. reflexivity. Qed.

(** A buffer cut inside a length-prefixed string fails to read; a buffer cut
    after it reads the string and leaves the bytes up to the cut. *)
Lemma readString_cut (d R p q : list byte) :
  Z.of_nat (List.length d) < 2 ^ 32 ->
  p ++ q = sshString d ++ R ->
  (exists p', p = sshString d ++ p' /\ R = p' ++ q /\
              readString (Some p) = Ret (Some d, Some p')) \/
  ((List.length p < List.length (sshString d))%nat /\
   readString (Some p) = Ret (None, None)).
Proof.
  intros Hd E.
  destruct (Nat.lt_ge_cases (List.length p) (List.length (sshString d))) as [Hlt|Hge].
  - right. split; [assumption|].
    destruct (Nat.lt_ge_cases (List.length p) 4) as [H4|H4].
    + apply readString_short. rewrite len_Some. lia.
    + assert (Ep : p = PutUint32 (Z.of_nat (List.length d)) ++ skipn 4 p).
      { rewrite <- (firstn_skipn 4 p) at 1. f_equal.
        apply (f_equal (firstn 4)) in E.
        rewrite firstn_app in E.
        replace (4 - List.length p)%nat with 0%nat in E by lia.
        rewrite firstn_O, app_nil_r in E. rewrite E.
        unfold sshString. rewrite <- app_assoc. reflexivity. }
      rewrite Ep, readString_hdr by lia.
      rewrite sshString_length in Hlt.
      assert (List.length (skipn 4 p) = List.length p - 4)%nat by apply length_skipn.
      destruct (Z.ltb_spec (Z.of_nat (List.length (skipn 4 p))) (Z.of_nat (List.length d)));
        [reflexivity | lia].
  - left. exists (skipn (List.length (sshString d)) p).
    assert (Ep : p = sshString d ++ skipn (List.length (sshString d)) p).
    { rewrite <- (firstn_skipn (List.length (sshString d)) p) at 1. f_equal.
      apply (f_equal (firstn (List.length (sshString d)))) in E.
      rewrite !firstn_app in E.
      replace (List.length (sshString d) - List.length p)%nat with 0%nat in E by lia.
      rewrite Nat.sub_diag, firstn_all, !firstn_O, !app_nil_r in E. exact E. }
    split; [exact Ep|]. split.
    + rewrite Ep in E at 1. rewrite <- app_assoc in E.
      apply app_inv_head in E. symmetry. exact E.
    + rewrite Ep at 1. apply readString_sshString. exact Hd.
Qed.

(** ** The blob parser *)

Lemma parse_short_magic (blob : slice) :
  len blob < 6 -> parseSignatureBlob blob = Ret (Err ErrMagic).
Proof.
  intros H. unfold parseSignatureBlob.
  destruct (Z.ltb_spec (len blob) 6); [reflexivity | lia].
Qed.

Lemma parse_cons6 (m0 m1 m2 m3 m4 m5 : byte) (x : list byte) :
  parseSignatureBlob (Some (m0 :: m1 :: m2 :: m3 :: m4 :: m5 :: x)) =
  if negb (String.eqb (string_of_list_byte [m0; m1; m2; m3; m4; m5]) "SSHSIG")
  then Ret (Err ErrMagic)
  else
    match x with
    | v0 :: v1 :: v2 :: v3 :: y =>
        if negb (be32 v0 v1 v2 v3 =? 1) then Ret (Err ErrVersion)
        else afterHeader (Some y)
    | _ => Ret (Err ErrVersion)
    end.
Proof.
  unfold parseSignatureBlob.
  replace (len (Some (m0 :: m1 :: m2 :: m3 :: m4 :: m5 :: x)) <? 6) with false
    by (symmetry; apply Z.ltb_ge; rewrite len_Some; cbn [List.length]; lia).
  unfold slice_to at 1, slice_from at 1.
  replace ((6 <? 0) || (len (Some (m0 :: m1 :: m2 :: m3 :: m4 :: m5 :: x)) <? 6)) with false
    by (symmetry; apply orb_false_iff; split; apply Z.ltb_ge;
        [lia | rewrite len_Some; cbn [List.length]; lia]).
  cbn [bind option_map].
  change (to_string (Some (firstn (Z.to_nat 6) (m0 :: m1 :: m2 :: m3 :: m4 :: m5 :: x))))
    with (string_of_list_byte [m0; m1; m2; m3; m4; m5]).
  destruct (negb (String.eqb (string_of_list_byte [m0; m1; m2; m3; m4; m5]) "SSHSIG"));
    [reflexivity|].
  change (skipn (Z.to_nat 6) (m0 :: m1 :: m2 :: m3 :: m4 :: m5 :: x)) with x.
  destruct x as [|v0 [|v1 [|v2 [|v3 y]]]]; try reflexivity.
  replace (len (Some (v0 :: v1 :: v2 :: v3 :: y)) <? 4) with false
    by (symmetry; apply Z.ltb_ge; rewrite len_Some; cbn [List.length]; lia).
  unfold slice_to at 1, slice_from at 1.
  replace ((4 <? 0) || (len (Some (v0 :: v1 :: v2 :: v3 :: y)) <? 4)) with false
    by (symmetry; apply orb_false_iff; split; apply Z.ltb_ge;
        [lia | rewrite len_Some; cbn [List.length]; lia]).
  cbn [bind option_map].
  change (firstn (Z.to_nat 4) (v0 :: v1 :: v2 :: v3 :: y)) with [v0; v1; v2; v3].
  rewrite Uint32_cons4. cbn [bind].
  destruct (negb (be32 v0 v1 v2 v3 =? 1)); reflexivity.
Qed.

Lemma skipStrings_no_panic (k : nat) (b : slice) : exists r, skipStrings k b = Ret r.
Proof.
  revert b. induction k as [|k IH]; intros b; cbn [skipStrings]; [eauto|].
  destruct (readString_no_panic b) as [[d r] E]. rewrite E. cbn [bind]. apply IH.
Qed.

Lemma afterHeader_no_panic (b : slice) : exists r, afterHeader b = Ret r.
Proof.
  unfold afterHeader.
  destruct (skipStrings_no_panic 3 b) as [b1 E1]. rewrite E1. cbn [bind].
  destruct (is_nil b1); [eauto|].
  destruct (readString_no_panic b1) as [[h b2] E2]. rewrite E2. cbn [bind].
  destruct (readString_no_panic b2) as [[sb b3] E3]. rewrite E3. cbn [bind].
  destruct (is_nil sb); [eauto|].
  destruct (readString_no_panic sb) as [[sa sb1] E4]. rewrite E4. cbn [bind].
  destruct (readString_no_panic sb1) as [[sd sb2] E5]. rewrite E5. cbn [bind].
  destruct (is_nil sd); eauto.
Qed.

(** The parser returns on every buffer: no slice expression in it can go
    out of range. *)
Lemma parseSignatureBlob_no_panic (blob : slice) :
  exists r, parseSignatureBlob blob = Ret r.
Proof.
  destruct blob as [[|m0 [|m1 [|m2 [|m3 [|m4 [|m5 x]]]]]]|];
    try (eexists; apply parse_short_magic; rewrite ?len_Some; cbn; lia).
  rewrite parse_cons6.
  destruct (negb _); [eauto|].
  destruct x as [|v0 [|v1 [|v2 [|v3 y]]]]; eauto.
  destruct (negb _); [eauto|]. apply afterHeader_no_panic.
Qed.

Lemma parse_header (x : list byte) :
  parseSignatureBlob (Some (magic ++ PutUint32 1 ++ x)) = afterHeader (Some x).
Proof.
  change (magic ++ PutUint32 1 ++ x)
    with ("S"%byte :: "S"%byte :: "H"%byte :: "S"%byte :: "I"%byte :: "G"%byte
            :: x00 :: x00 :: x00 :: x01 :: x).
  rewrite parse_cons6. reflexivity.
Qed.

Lemma skipStrings_3 (pk ns rsv x : list byte) :
  fits pk -> fits ns -> fits rsv ->
  skipStrings 3 (Some (sshString pk ++ sshString ns ++ sshString rsv ++ x)) = Ret (Some x).
Proof.
  intros Hpk Hns Hrsv. cbn [skipStrings].
  rewrite readString_sshString by exact Hpk. cbn [bind].
  rewrite readString_sshString by exact Hns. cbn [bind].
  rewrite readString_sshString by exact Hrsv. reflexivity.
Qed.

Lemma append_trailer (data trailer : list byte) :
  (if 0 <? len (Some trailer) then append (Some data) (Some trailer) else Some data)
  = Some (data ++ trailer).
Proof.
  destruct trailer as [|t trailer]; cbn.
  - rewrite app_nil_r. reflexivity.
  - reflexivity.
Qed.

(** The last stage of the parser, inside the signature blob. *)
Lemma afterHeader_sigBlob (b : list byte) (hashAlg sigAlg sigData trailer extra : list byte) :
  fits hashAlg -> fits (sigBlobOf sigAlg sigData trailer) ->
  skipStrings 3 (Some b)
    = Ret (Some (sshString hashAlg ++ sshString (sigBlobOf sigAlg sigData trailer) ++ extra)) ->
  afterHeader (Some b)
    = Ret (Ok (string_of_list_byte sigAlg, string_of_list_byte hashAlg,
               Some (sigData ++ trailer))).
Proof.
  intros Hh Hsb Hskip. unfold afterHeader. rewrite Hskip. cbn [bind is_nil].
  rewrite readString_sshString by exact Hh. cbn [bind].
  rewrite readString_sshString by exact Hsb. cbn [bind is_nil].
  assert (Hsa : fits sigAlg /\ fits sigData).
  { unfold fits, sigBlobOf in *. rewrite !length_app, !sshString_length in Hsb. lia. }
  destruct Hsa as [Hsa Hsd].
  unfold sigBlobOf. rewrite readString_sshString by exact Hsa. cbn [bind].
  rewrite readString_sshString by exact Hsd. cbn [bind is_nil].
  rewrite append_trailer. reflexivity.
Qed.

Lemma afterHeader_fields (pk ns rsv hashAlg sigAlg sigData trailer extra : list byte) :
  fits pk -> fits ns -> fits rsv -> fits hashAlg ->
  fits (sigBlobOf sigAlg sigData trailer) ->
  afterHeader (Some (sshString pk ++ sshString ns ++ sshString rsv ++ sshString hashAlg
                       ++ sshString (sigBlobOf sigAlg sigData trailer) ++ extra))
    = Ret (Ok (string_of_list_byte sigAlg, string_of_list_byte hashAlg,
               Some (sigData ++ trailer))).
Proof.
  intros Hpk Hns Hrsv Hh Hsb.
  apply afterHeader_sigBlob with (extra := extra); try assumption.
  apply skipStrings_3; assumption.
Qed.

Lemma payload_app (pk ns rsv hashAlg sigBlob extra : list byte) :
  payload pk ns rsv hashAlg sigBlob ++ extra =
  magic ++ PutUint32 1 ++ sshString pk ++ sshString ns ++ sshString rsv
        ++ sshString hashAlg ++ sshString sigBlob ++ extra.
Proof. unfold payload. rewrite <- !app_assoc. reflexivity. Qed.

(** The parser on a well-formed payload, followed by any bytes at all. *)
Lemma parse_payload (pk ns rsv hashAlg sigAlg sigData trailer extra : list byte) :
  fits pk -> fits ns -> fits rsv -> fits hashAlg ->
  fits (sigBlobOf sigAlg sigData trailer) ->
  parseSignatureBlob
    (Some (payload pk ns rsv hashAlg (sigBlobOf sigAlg sigData trailer) ++ extra))
    = Ret (Ok (string_of_list_byte sigAlg, string_of_list_byte hashAlg,
               Some (sigData ++ trailer))).
Proof.
  intros. rewrite payload_app, parse_header. apply afterHeader_fields; assumption.
Qed.

(** Every buffer the parser accepts past the header is laid out as five
    length-prefixed fields, the last holding the algorithm name, the
    signature data and a trailer. *)
Lemma afterHeader_inv (b : slice) (a h : string) (s : slice) :
  afterHeader b = Ret (Ok (a, h, s)) ->
  exists pk ns rsv hashAlg sigAlg sigData trailer extra,
    elems b = sshString pk ++ sshString ns ++ sshString rsv ++ sshString hashAlg
                ++ sshString (sigBlobOf sigAlg sigData trailer) ++ extra /\
    fits pk /\ fits ns /\ fits rsv /\ fits hashAlg /\
    fits (sigBlobOf sigAlg sigData trailer) /\
    a = string_of_list_byte sigAlg /\ h = string_of_list_byte hashAlg /\
    s = Some (sigData ++ trailer).
Proof.
  intros H. unfold afterHeader in H. cbn [skipStrings] in H.
  read_field readString_cases H b pk r1.
  read_field readString_cases H (Some r1) ns r2.
  read_field readString_cases H (Some r2) rsv r3.
  read_field readString_cases H (Some r3) hashAlg r4.
  read_field readString_cases H (Some r4) sigBlob extra.
  read_field readString_cases H (Some sigBlob) sigAlg r5.
  read_field readString_cases H (Some r5) sigData trailer.
  rewrite append_trailer in H. injection H as <- <- <-.
  exists pk, ns, rsv, hashAlg, sigAlg, sigData, trailer, extra.
  assert (Esb : sigBlob = sigBlobOf sigAlg sigData trailer)
    by (unfold sigBlobOf; congruence).
  unfold fits. rewrite <- Esb. repeat split; try assumption.
  rewrite Hb. congruence.
Qed.

Lemma string_of_list_byte_inj (l1 l2 : list byte) :
  string_of_list_byte l1 = string_of_list_byte l2 -> l1 = l2.
Proof.
  intros E. apply (f_equal list_byte_of_string) in E.
  rewrite !list_byte_of_string_of_list_byte in E. exact E.
Qed.

(** Every payload the parser accepts is a well-formed payload followed by
    bytes it does not look at. *)
Lemma parseSignatureBlob_inv (blob : slice) (a h : string) (s : slice) :
  parseSignatureBlob blob = Ret (Ok (a, h, s)) ->
  exists pk ns rsv hashAlg sigAlg sigData trailer extra,
    elems blob = payload pk ns rsv hashAlg (sigBlobOf sigAlg sigData trailer) ++ extra /\
    fits pk /\ fits ns /\ fits rsv /\ fits hashAlg /\
    fits (sigBlobOf sigAlg sigData trailer) /\
    a = string_of_list_byte sigAlg /\ h = string_of_list_byte hashAlg /\
    s = Some (sigData ++ trailer).
Proof.
  intros H.
  destruct blob as [[|m0 [|m1 [|m2 [|m3 [|m4 [|m5 x]]]]]]|];
    try (rewrite parse_short_magic in H by (rewrite ?len_Some; cbn; lia); discriminate).
  rewrite parse_cons6 in H.
  destruct (String.eqb_spec (string_of_list_byte [m0; m1; m2; m3; m4; m5]) "SSHSIG")
    as [Em|]; [|discriminate].
  cbn [negb] in H.
  destruct x as [|v0 [|v1 [|v2 [|v3 y]]]]; try discriminate.
  destruct (Z.eqb_spec (be32 v0 v1 v2 v3) 1) as [Ev|]; [|discriminate].
  cbn [negb] in H.
  apply afterHeader_inv in H.
  destruct H as (pk & ns & rsv & hashAlg & sigAlg & sigData & trailer & extra & Ey & R).
  exists pk, ns, rsv, hashAlg, sigAlg, sigData, trailer, extra.
  split; [|exact R].
  rewrite payload_app. cbn [elems] in *. rewrite <- Ey.
  change "SSHSIG"%string with (string_of_list_byte magic) in Em.
  apply string_of_list_byte_inj in Em.
  pose proof (PutUint32_be32 v0 v1 v2 v3) as Ep. rewrite Ev in Ep.
  change (m0 :: m1 :: m2 :: m3 :: m4 :: m5 :: v0 :: v1 :: v2 :: v3 :: y)
    with ([m0; m1; m2; m3; m4; m5] ++ [v0; v1; v2; v3] ++ y).
  rewrite Em, Ep. reflexivity.
Qed.

(** ** encoding/base64 *)

Lemma sextet_eq (v k : Z) : 0 <= k -> sextet v k = (v / 2 ^ k) mod 64.
Proof.
  intros Hk. unfold sextet. change 63 with (Z.ones 6).
  rewrite Z.land_ones, Z.shiftr_div_pow2 by lia. reflexivity.
Qed.

Lemma sextet_range (v k : Z) : 0 <= k -> 0 <= sextet v k < 64.
Proof.
  intros Hk. rewrite sextet_eq by assumption. apply Z.mod_pos_bound. lia.
Qed.

Lemma lor_add (x y k : Z) :
  0 <= k -> 0 <= y < 2 ^ k -> x mod 2 ^ k = 0 -> Z.lor x y = x + y.
Proof.
  intros Hk Hy Hx.
  assert (Hp : 0 < 2 ^ k) by (apply Z.pow_pos_nonneg; lia).
  assert (E : x = (x / 2 ^ k) * 2 ^ k).
  { pose proof (Z.div_mod x (2 ^ k)). lia. }
  rewrite E at 1. rewrite <- Z.shiftl_mul_pow2 by assumption.
  rewrite lor_shiftl_add by assumption. lia.
Qed.

Lemma pack_add (d0 d1 d2 d3 : Z) :
  0 <= d0 < 64 -> 0 <= d1 < 64 -> 0 <= d2 < 64 -> 0 <= d3 < 64 ->
  pack d0 d1 d2 d3 = d0 * 262144 + d1 * 4096 + d2 * 64 + d3.
Proof.
  intros H0 H1 H2 H3. unfold pack.
  rewrite !Z.shiftl_mul_pow2 by lia. pow2_consts.
  rewrite (lor_add (d0 * 262144) (d1 * 4096) 18)
    by (pow2_consts; try (Z.div_mod_to_equations; lia); lia).
  rewrite (lor_add (d0 * 262144 + d1 * 4096) (d2 * 64) 12)
    by (pow2_consts; try (Z.div_mod_to_equations; lia); lia).
  rewrite (lor_add (d0 * 262144 + d1 * 4096 + d2 * 64) d3 6)
    by (pow2_consts; try (Z.div_mod_to_equations; lia); lia).
  reflexivity.
Qed.

Lemma pack_sextets (v : Z) :
  0 <= v < 2 ^ 24 -> pack (sextet v 18) (sextet v 12) (sextet v 6) (sextet v 0) = v.
Proof.
  intros Hv. rewrite pack_add by (apply sextet_range; lia).
  rewrite !sextet_eq by lia. pow2_consts. change (2 ^ 0) with 1.
  Z.div_mod_to_equations. lia.
Qed.

Lemma sextet_0 (v : Z) : Z.land v 63 = sextet v 0.
Proof. unfold sextet. rewrite Z.shiftr_0_r. reflexivity. Qed.

Lemma val3_range (a b c : byte) : 0 <= val3 a b c < 2 ^ 24.
Proof.
  unfold val3. pose proof (u8_range a). pose proof (u8_range b).
  pose proof (u8_range c). pow2_consts. lia.
Qed.

Lemma val3_lor (a b c : byte) :
  Z.lor (Z.lor (Z.shiftl (u8 a) 16) (Z.shiftl (u8 b) 8)) (u8 c) = val3 a b c.
Proof.
  pose proof (u8_range a). pose proof (u8_range b). pose proof (u8_range c).
  unfold val3. rewrite !Z.shiftl_mul_pow2 by lia. pow2_consts.
  rewrite (lor_add (u8 a * 65536) (u8 b * 256) 16)
    by (pow2_consts; try (Z.div_mod_to_equations; lia); lia).
  rewrite (lor_add (u8 a * 65536 + u8 b * 256) (u8 c) 8)
    by (pow2_consts; try (Z.div_mod_to_equations; lia); lia).
  reflexivity.
Qed.

Lemma val2_lor (a b : byte) :
  Z.lor (Z.shiftl (u8 a) 16) (Z.shiftl (u8 b) 8) = val3 a b x00.
Proof.
  rewrite <- val3_lor. change (u8 x00) with 0. rewrite Z.lor_0_r. reflexivity.
Qed.

Lemma val1_shiftl (a : byte) : Z.shiftl (u8 a) 16 = val3 a x00 x00.
Proof.
  rewrite <- val2_lor. change (u8 x00) with 0.
  rewrite Z.shiftl_0_l, Z.lor_0_r. reflexivity.
Qed.

Lemma val3_bytes (a b c : byte) :
  to_byte (Z.shiftr (val3 a b c) 16) = a /\
  to_byte (Z.shiftr (val3 a b c) 8) = b /\
  to_byte (Z.shiftr (val3 a b c) 0) = c.
Proof.
  pose proof (u8_range a). pose proof (u8_range b). pose proof (u8_range c).
  rewrite !Z.shiftr_div_pow2 by lia. unfold val3. pow2_consts. change (2 ^ 0) with 1.
  repeat split; apply to_byte_eq; Z.div_mod_to_equations; lia.
Qed.

Lemma decodeMap_encode (d : Z) :
  0 <= d < 64 -> RawURLEncoding.decodeMap (RawURLEncoding.encode d) = d.
Proof.
  intros Hd.
  assert (Hall : forallb (fun n => RawURLEncoding.decodeMap (RawURLEncoding.encode (Z.of_nat n))
                                   =? Z.of_nat n) (seq 0 64) = true)
    by (vm_compute; reflexivity).
  rewrite forallb_forall in Hall.
  specialize (Hall (Z.to_nat d)).
  rewrite Z2Nat.id in Hall by lia.
  apply Z.eqb_eq, Hall, in_seq. lia.
Qed.

Lemma decode_sextet (d : Z) (src : list byte) (si : Z) (dbuf : list Z) :
  0 <= d < 64 ->
  RawURLEncoding.decode (RawURLEncoding.encode d :: src) si dbuf =
  if (List.length (dbuf ++ [d]) =? 4)%nat
  then RawURLEncoding.prepend (RawURLEncoding.quantum (dbuf ++ [d]))
                              (RawURLEncoding.decode src (si + 1) [])
  else RawURLEncoding.decode src (si + 1) (dbuf ++ [d]).
Proof.
  intros Hd. cbn [RawURLEncoding.decode]. rewrite decodeMap_encode by assumption.
  destruct (Z.eqb_spec d 255); [lia|]. reflexivity.
Qed.

Lemma quantum_pack (d0 d1 d2 d3 : Z) :
  RawURLEncoding.quantum [d0; d1; d2; d3] =
  [to_byte (Z.shiftr (pack d0 d1 d2 d3) 16); to_byte (Z.shiftr (pack d0 d1 d2 d3) 8);
   to_byte (Z.shiftr (pack d0 d1 d2 d3) 0)].
Proof. reflexivity. Qed.

Lemma quantum_pack2 (d0 d1 : Z) :
  RawURLEncoding.quantum [d0; d1] = [to_byte (Z.shiftr (pack d0 d1 0 0) 16)].
Proof. reflexivity. Qed.

Lemma quantum_pack3 (d0 d1 d2 : Z) :
  RawURLEncoding.quantum [d0; d1; d2] =
  [to_byte (Z.shiftr (pack d0 d1 d2 0) 16); to_byte (Z.shiftr (pack d0 d1 d2 0) 8)].
Proof. reflexivity. Qed.

Lemma sextet_low_0 (a b : byte) : sextet (val3 a b x00) 0 = 0.
Proof.
  rewrite sextet_eq by lia. unfold val3. change (u8 x00) with 0. change (2 ^ 0) with 1.
  Z.div_mod_to_equations. lia.
Qed.

Lemma sextet_mid_0 (a : byte) : sextet (val3 a x00 x00) 6 = 0.
Proof.
  rewrite sextet_eq by lia. unfold val3. change (u8 x00) with 0. pow2_consts.
  Z.div_mod_to_equations. lia.
Qed.

Lemma list_ind3 (A : Type) (P : list A -> Prop) :
  P [] -> (forall a, P [a]) -> (forall a b, P [a; b]) ->
  (forall a b c l, P l -> P (a :: b :: c :: l)) ->
  forall l, P l.
Proof.
  intros H0 H1 H2 H3.
  fix IH 1. intros [|a [|b [|c l]]]; [exact H0 | apply H1 | apply H2 |].
  apply H3, IH.
Qed.

(** Decoding inverts encoding, from any offset. *)
Lemma decode_Encode (l : list byte) :
  forall si, RawURLEncoding.decode (RawURLEncoding.Encode l) si [] = inr l.
Proof.
  induction l as [|a|a b|a b c l IH] using list_ind3; intros si.
  - reflexivity.
  - cbn [RawURLEncoding.Encode]. rewrite val1_shiftl.
    fold (sextet (val3 a x00 x00) 18). fold (sextet (val3 a x00 x00) 12).
    rewrite !decode_sextet by (apply sextet_range; lia).
    cbn [app List.length Nat.eqb RawURLEncoding.decode].
    rewrite quantum_pack2.
    rewrite <- (sextet_mid_0 a) at 1. rewrite <- (sextet_low_0 a x00) at 1.
    rewrite pack_sextets by apply val3_range.
    do 2 f_equal. apply val3_bytes.
  - cbn [RawURLEncoding.Encode]. rewrite val2_lor.
    fold (sextet (val3 a b x00) 18). fold (sextet (val3 a b x00) 12).
    fold (sextet (val3 a b x00) 6).
    rewrite !decode_sextet by (apply sextet_range; lia).
    cbn [app List.length Nat.eqb RawURLEncoding.decode].
    rewrite quantum_pack3.
    rewrite <- (sextet_low_0 a b) at 1 2.
    rewrite pack_sextets by apply val3_range.
    destruct (val3_bytes a b x00) as (Ea & Eb & _). rewrite Ea, Eb. reflexivity.
  - cbn [RawURLEncoding.Encode]. rewrite val3_lor.
    fold (sextet (val3 a b c) 18). fold (sextet (val3 a b c) 12).
    fold (sextet (val3 a b c) 6). rewrite (sextet_0 (val3 a b c)).
    rewrite !decode_sextet by (apply sextet_range; lia).
    cbn [app List.length Nat.eqb].
    rewrite quantum_pack, pack_sextets by apply val3_range.
    destruct (val3_bytes a b c) as (Ea & Eb & Ec). rewrite Ea, Eb, Ec.
    rewrite IH. reflexivity.
Qed.

Lemma DecodeString_EncodeToString (s : slice) :
  RawURLEncoding.DecodeString (RawURLEncoding.EncodeToString s) = inr (Some (elems s)).
Proof.
  unfold RawURLEncoding.DecodeString, RawURLEncoding.EncodeToString.
  rewrite list_byte_of_string_of_list_byte, decode_Encode. reflexivity.
Qed.

Lemma Encode_nonempty (b : byte) (l : list byte) :
  (2 <= List.length (RawURLEncoding.Encode (b :: l)))%nat.
Proof.
  destruct l as [|b1 [|b2 l]]; cbn [RawURLEncoding.Encode List.length]; lia.
Qed.

(** ** The algorithm registry *)

Lemma byte_eqb_eq (x y : byte) : Byte.eqb x y = true <-> x = y.
Proof.
  split.
  - apply Byte.byte_dec_bl.
  - apply Byte.byte_dec_lb.
Qed.

Lemma row_of_Some (m : list (Algs * byte)) (c : byte) (k : Algs) :
  row_of m c = Some k -> In (k, c) m.
Proof.
  induction m as [|[k' v] m IH]; cbn [row_of]; [discriminate|].
  destruct (Byte.eqb v c) eqn:E.
  - intros [= ->]. apply byte_eqb_eq in E. subst. left. reflexivity.
  - intros H. right. apply IH, H.
Qed.

Lemma row_of_None (m : list (Algs * byte)) (c : byte) :
  row_of m c = None -> forall k, ~ In (k, c) m.
Proof.
  induction m as [|[k' v] m IH]; cbn [row_of]; [intros _ k []|].
  destruct (Byte.eqb v c) eqn:E; [discriminate|].
  intros H k [[= -> ->]|Hin].
  - rewrite (proj2 (byte_eqb_eq c c) eq_refl) in E. discriminate.
  - exact (IH H k Hin).
Qed.

Lemma Algs_eqb_eq (a b : Algs) : Algs_eqb a b = true <-> a = b.
Proof.
  destruct a as [s1 h1], b as [s2 h2]. unfold Algs_eqb. cbn [Sig Hash].
  rewrite andb_true_iff, !String.eqb_eq. split.
  - intros [-> ->]. reflexivity.
  - intros [= -> ->]. split; reflexivity.
Qed.

Lemma map_lookup_In (m : list (Algs * byte)) (k : Algs) (v : byte) :
  map_lookup m k = Some v -> In (k, v) m.
Proof.
  induction m as [|[k' v'] m IH]; cbn [map_lookup]; [discriminate|].
  destruct (Algs_eqb k' k) eqn:E.
  - intros [= ->]. apply Algs_eqb_eq in E. subst. left. reflexivity.
  - intros H. right. apply IH, H.
Qed.

Lemma prefixes_NoDup : NoDup (map snd algsToPrefix).
Proof.
  cbn [map snd algsToPrefix].
  repeat (constructor; [cbn [In]; intuition discriminate|]). constructor.
Qed.

Lemma NoDup_snd_inj (A B : Type) (m : list (A * B)) (a1 a2 : A) (b : B) :
  NoDup (map snd m) -> In (a1, b) m -> In (a2, b) m -> a1 = a2.
Proof.
  induction m as [|[a' b'] m IH]; cbn [map snd In]; [intros _ []|].
  intros Hnd H1 H2. inversion Hnd as [|? ? Hnotin Hnd']; subst.
  destruct H1 as [E1|H1], H2 as [E2|H2].
  - congruence.
  - exfalso. apply Hnotin. apply (in_map snd) in H2. cbn [snd] in H2. congruence.
  - exfalso. apply Hnotin. apply (in_map snd) in H1. cbn [snd] in H1. congruence.
  - exact (IH Hnd' H1 H2).
Qed.

(** [init] runs to completion and leaves the package table. *)
Lemma init_PrefixToAlgs : init = Ret PrefixToAlgs.
Proof. vm_compute. reflexivity. Qed.

(** Reading the table at any byte gives the row carrying that byte, or the
    zero value. *)
Lemma array_get_PrefixToAlgs (c : byte) :
  array_get PrefixToAlgs c =
  Ret (match row_of algsToPrefix c with Some k => k | None => zeroAlgs end).
Proof. destruct c; vm_compute; reflexivity. Qed.

Lemma row_of_In (k : Algs) (c : byte) :
  In (k, c) algsToPrefix -> row_of algsToPrefix c = Some k.
Proof.
  intros Hin. destruct (row_of algsToPrefix c) as [k'|] eqn:E.
  - f_equal. apply row_of_Some in E.
    exact (NoDup_snd_inj _ _ _ _ _ _ prefixes_NoDup E Hin).
  - exfalso. exact (row_of_None _ _ E k Hin).
Qed.

(** Every row of the table: an ASCII prefix byte and a non-empty signature
    algorithm name. *)
Lemma rows_wellformed (k : Algs) (c : byte) :
  In (k, c) algsToPrefix -> u8 c < 128 /\ String.eqb (Sig k) "" = false.
Proof.
  cbn [In algsToPrefix].
  intros H; repeat (destruct H as [[= <- <-]|H]; [vm_compute; auto|]); destruct H.
Qed.

(** ** Strings and tokens *)

Lemma append_bytes (l1 l2 : list byte) :
  String.append (string_of_list_byte l1) (string_of_list_byte l2)
  = string_of_list_byte (l1 ++ l2).
Proof.
  induction l1 as [|b l1 IH]; [reflexivity|].
  change (string_of_list_byte (b :: l1))
    with (String (ascii_of_byte b) (string_of_list_byte l1)).
  cbn [String.append app].
  change (string_of_list_byte (b :: l1 ++ l2))
    with (String (ascii_of_byte b) (string_of_list_byte (l1 ++ l2))).
  rewrite IH. reflexivity.
Qed.

Lemma string_of_rune_ascii (c : byte) :
  u8 c < 128 -> string_of_rune c = string_of_list_byte [c].
Proof.
  intros H. unfold string_of_rune.
  destruct (Z.ltb_spec (u8 c) 128); [reflexivity | lia].
Qed.

(** [Decode] on a two-part token: a byte and at least one more. *)
Lemma Decode_cons2 (c c1 : byte) (l : list byte) :
  Decode (string_of_list_byte (c :: c1 :: l)) =
  match row_of algsToPrefix c with
  | Some k =>
      if String.eqb (Sig k) "" then Ret (Err (ErrUnknownPrefix c))
      else match RawURLEncoding.decode (c1 :: l) 0 [] with
           | inl e => Ret (Err (ErrDecodeSignature e))
           | inr sigBytes => Ret (Ok (k, Some sigBytes))
           end
  | None => Ret (Err (ErrUnknownPrefix c))
  end.
Proof.
  unfold Decode, strlen, str_index, str_from, strlen.
  rewrite list_byte_of_string_of_list_byte. cbn [List.length].
  replace (Z.of_nat (S (S (List.length l))) <? 2) with false
    by (symmetry; apply Z.ltb_ge; lia).
  replace ((0 <? 0) || (Z.of_nat (S (S (List.length l))) <=? 0)) with false
    by (symmetry; apply orb_false_iff; split; [reflexivity | apply Z.leb_gt; lia]).
  change (Z.to_nat 0) with 0%nat. change (Z.to_nat 1) with 1%nat.
  cbn [nth_error bind skipn].
  rewrite array_get_PrefixToAlgs. cbn [bind].
  replace ((1 <? 0) || (Z.of_nat (S (S (List.length l))) <? 1)) with false
    by (symmetry; apply orb_false_iff; split; [reflexivity | apply Z.ltb_ge; lia]).
  cbn [bind].
  unfold RawURLEncoding.DecodeString. rewrite list_byte_of_string_of_list_byte.
  destruct (row_of algsToPrefix c) as [k|]; [|reflexivity].
  destruct (String.eqb (Sig k) ""); [reflexivity|].
  destruct (RawURLEncoding.decode (c1 :: l) 0 []); reflexivity.
Qed.

(** Decoding a token made of a table prefix and the encoding of a
    non-empty signature. *)
Lemma Decode_token (k : Algs) (c b : byte) (l : list byte) :
  In (k, c) algsToPrefix ->
  Decode (String.append (string_of_rune c)
                        (RawURLEncoding.EncodeToString (Some (b :: l))))
  = Ret (Ok (k, Some (b :: l))).
Proof.
  intros Hin. destruct (rows_wellformed k c Hin) as [Hc Hs].
  rewrite string_of_rune_ascii by exact Hc.
  unfold RawURLEncoding.EncodeToString. rewrite append_bytes. cbn [app elems].
  pose proof (Encode_nonempty b l) as Hlen.
  pose proof (decode_Encode (b :: l) 0) as Hdec.
  destruct (RawURLEncoding.Encode (b :: l)) as [|e0 es] eqn:E; [cbn in Hlen; lia|].
  rewrite Decode_cons2, (row_of_In k c Hin), Hs, Hdec. reflexivity.
Qed.

Lemma map_lookup_rows (k : Algs) (c : byte) :
  In (k, c) algsToPrefix -> map_lookup algsToPrefix k = Some c.
Proof.
  cbn [In algsToPrefix].
  intros H; repeat (destruct H as [[= <- <-]|H]; [vm_compute; reflexivity|]); destruct H.
Qed.

(** * The claims *)

(** C10.  [readString] is total and exact: on every buffer it returns
    without a panic; it fails (the nil pair) exactly when fewer than four
    bytes are there or fewer than the declared [n] bytes follow the length
    field, and otherwise returns a data slice of length [n] and the rest,
    which together with the four length bytes make up the input. *)
Theorem readString_total_exact (b : slice) :
  (readString b = Ret (None, None) /\
   (len b < 4 \/ exists n, binary.Uint32 b = Ret n /\ len b - 4 < n))
  \/
  (exists n data rest,
      binary.Uint32 b = Ret n /\
      4 <= len b /\ n <= len b - 4 /\
      readString b = Ret (Some data, Some rest) /\
      len (Some data) = n /\
      4 + len (Some data) + len (Some rest) = len b /\
      elems b = firstn 4 (elems b) ++ data ++ rest).
Proof.
  destruct b as [[|b0 [|b1 [|b2 [|b3 r]]]]|];
    try (left; split; [reflexivity | left; cbn; lia]).
  pose proof (be32_range b0 b1 b2 b3) as Hn.
  rewrite readString_cons4, Uint32_cons4, !len_Some. cbn [List.length elems firstn].
  destruct (Z.ltb_spec (Z.of_nat (List.length r)) (be32 b0 b1 b2 b3)) as [Hlt|Hge].
  - left. split; [reflexivity|]. right. eexists. split; [reflexivity|]. lia.
  - right. do 3 eexists. split; [reflexivity|].
    split; [lia|]. split; [lia|]. split; [reflexivity|].
    rewrite !len_Some, length_skipn.
    rewrite firstn_length_le by lia.
    split; [lia|]. split; [lia|].
    cbn [app]. rewrite firstn_skipn. reflexivity.
Qed.

(** C4.  The reverse lookup is total over the 256 byte values: [init] runs
    without a panic, and reading [PrefixToAlgs] at any byte returns, without
    a panic, the pair of the table row carrying that byte, or the empty
    pair when no row carries it; the reserved byte [z] reads as the empty
    pair. *)
Theorem reverse_lookup_total :
  init = Ret PrefixToAlgs /\
  (forall c : byte,
      exists a, array_get PrefixToAlgs c = Ret a /\
                (In (a, c) algsToPrefix \/
                 (a = zeroAlgs /\ forall k, ~ In (k, c) algsToPrefix))) /\
  array_get PrefixToAlgs PrefixReserved = Ret zeroAlgs /\
  (forall k, ~ In (k, PrefixReserved) algsToPrefix).
Proof.
  split; [exact init_PrefixToAlgs|]. split; [|split].
  - intros c. rewrite array_get_PrefixToAlgs.
    destruct (row_of algsToPrefix c) as [k|] eqn:E.
    + exists k. split; [reflexivity|]. left. apply row_of_Some, E.
    + exists zeroAlgs. split; [reflexivity|]. right.
      split; [reflexivity|]. apply row_of_None, E.
  - rewrite array_get_PrefixToAlgs. reflexivity.
  - apply row_of_None. reflexivity.
Qed.

(** C5.  The forward mapping is injective: two pairs that the forward
    lookup sends to the same prefix byte are the same pair, and no two rows
    of the table share a byte.  [(ssh-rsa, sha256)] maps to [2] and
    [(ssh-rsa, sha512)] to [5], two distinct bytes, and decoding a token
    with either prefix gives back the pair with the right hash. *)
Theorem forward_lookup_injective :
  (forall (a1 a2 : Algs) (c : byte),
      map_lookup algsToPrefix a1 = Some c ->
      map_lookup algsToPrefix a2 = Some c -> a1 = a2) /\
  NoDup (map snd algsToPrefix) /\
  map_lookup algsToPrefix (mkAlgs SigLegacyRSA HashSHA256) = Some PrefixLegacyRSA256 /\
  map_lookup algsToPrefix (mkAlgs SigLegacyRSA HashSHA512) = Some PrefixLegacyRSA512 /\
  PrefixLegacyRSA256 = "2"%byte /\ PrefixLegacyRSA512 = "5"%byte /\
  PrefixLegacyRSA256 <> PrefixLegacyRSA512 /\
  (forall (b : byte) (l : list byte),
      Decode (String.append (string_of_rune PrefixLegacyRSA256)
                            (RawURLEncoding.EncodeToString (Some (b :: l))))
        = Ret (Ok (mkAlgs SigLegacyRSA HashSHA256, Some (b :: l))) /\
      Decode (String.append (string_of_rune PrefixLegacyRSA512)
                            (RawURLEncoding.EncodeToString (Some (b :: l))))
        = Ret (Ok (mkAlgs SigLegacyRSA HashSHA512, Some (b :: l)))).
Proof.
  split; [|split; [exact prefixes_NoDup|]].
  - intros a1 a2 c H1 H2.
    apply (NoDup_snd_inj _ _ algsToPrefix a1 a2 c prefixes_NoDup);
      apply map_lookup_In; assumption.
  - repeat split; try reflexivity; try discriminate.
    + apply Decode_token. cbn; tauto.
    + apply Decode_token. cbn; tauto.
Qed.

Lemma forward_lookup_injective_witness :
  mkAlgs SigLegacyRSA HashSHA512 = mkAlgs "ssh-rsa" "sha512".
Proof.
  apply (proj1 forward_lookup_injective _ _ "5"%byte); reflexivity.
Defined.

(** C6.  An input of 8193 bytes or more makes [Encode] fail with the size
    error, whatever the armor unwrapping would do on it: the unwrapper and
    the parser are not consulted. *)
Theorem Encode_size_ceiling (pem_Decode : slice -> option Block) (armored : slice) :
  8193 <= len armored -> Encode pem_Decode armored = Ret (Err ErrTooLarge).
Proof.
  intros H. unfold Encode.
  destruct (Z.ltb_spec maxArmoredSize (len armored)) as [_|Hle]; [reflexivity|].
  unfold maxArmoredSize in Hle. lia.
Qed.

Lemma Encode_size_ceiling_witness :
  Encode (sample_unwrap sample_sig) (Some (repeat x00 (Z.to_nat 8193))) = Ret (Err ErrTooLarge).
Proof.
  apply Encode_size_ceiling. vm_compute. discriminate.
Defined.

(** [Encode] on an envelope that unwraps and parses. *)
Lemma Encode_accepted (pem_Decode : slice -> option Block) (armored : slice)
      (block : Block) (sigAlg hashAlg : string) (sigData : slice) (c : byte) :
  len armored <= maxArmoredSize ->
  pem_Decode armored = Some block ->
  Type_ block = "SSH SIGNATURE"%string ->
  parseSignatureBlob (Bytes block) = Ret (Ok (sigAlg, hashAlg, sigData)) ->
  map_lookup algsToPrefix (mkAlgs sigAlg hashAlg) = Some c ->
  Encode pem_Decode armored
  = Ret (Ok (String.append (string_of_rune c) (RawURLEncoding.EncodeToString sigData))).
Proof.
  intros Hlen Hpem Hty Hparse Hlook. unfold Encode.
  destruct (Z.ltb_spec maxArmoredSize (len armored)); [lia|].
  rewrite Hpem, Hty. cbn [String.eqb negb].
  replace (String.eqb "SSH SIGNATURE" "SSH SIGNATURE") with true by reflexivity.
  cbn [negb]. rewrite Hparse. cbn [bind]. rewrite Hlook. reflexivity.
Qed.

(** C1, as the code has it.  For every pair of the table and every
    non-empty signature byte sequence: an envelope of at most 8192 bytes
    that unwraps to an SSH SIGNATURE block whose payload parses to that pair
    and those bytes encodes to a token, and decoding the token returns the
    pair and the bytes. *)
Theorem Encode_Decode_roundtrip (pem_Decode : slice -> option Block) (armored : slice)
        (block : Block) (sigAlg hashAlg : string) (sig : list byte) (c : byte) :
  In (mkAlgs sigAlg hashAlg, c) algsToPrefix ->
  sig <> [] ->
  len armored <= maxArmoredSize ->
  pem_Decode armored = Some block ->
  Type_ block = "SSH SIGNATURE"%string ->
  parseSignatureBlob (Bytes block) = Ret (Ok (sigAlg, hashAlg, Some sig)) ->
  exists token,
    Encode pem_Decode armored = Ret (Ok token) /\
    Decode token = Ret (Ok (mkAlgs sigAlg hashAlg, Some sig)).
Proof.
  intros Hin Hsig Hlen Hpem Hty Hparse.
  destruct sig as [|b l]; [contradiction|].
  eexists. split.
  - apply (Encode_accepted pem_Decode armored block sigAlg hashAlg (Some (b :: l)) c);
      try assumption.
    apply map_lookup_rows, Hin.
  - apply Decode_token, Hin.
Qed.

Lemma Encode_Decode_roundtrip_witness :
  exists token,
    Encode (sample_unwrap sample_sig) sample_armored = Ret (Ok token) /\
    Decode token = Ret (Ok (mkAlgs "ssh-ed25519" "sha512", Some sample_sig)).
Proof.
  apply (Encode_Decode_roundtrip (sample_unwrap sample_sig) sample_armored
           (sample_block sample_sig) "ssh-ed25519" "sha512" sample_sig "e"%byte).
  - left. reflexivity.
  - discriminate.
  - vm_compute. discriminate.
  - reflexivity.
  - reflexivity.
  - vm_compute. reflexivity.
Defined.

(** C1 as stated fails on the empty signature: the envelope parses to the
    pair (ssh-ed25519, sha512) and no bytes, [Encode] returns the one-byte
    token [e], and [Decode] rejects it as too short. *)
Lemma roundtrip_fails_on_empty_signature :
  parseSignatureBlob (Bytes (sample_block []))
    = Ret (Ok ("ssh-ed25519"%string, "sha512"%string, Some [])) /\
  In (mkAlgs "ssh-ed25519" "sha512", "e"%byte) algsToPrefix /\
  Encode (sample_unwrap []) sample_armored = Ret (Ok "e"%string) /\
  Decode "e" = Ret (Err ErrTooShort) /\
  ~ (forall (pem_Decode : slice -> option Block) (armored : slice) (block : Block)
            (sigAlg hashAlg : string) (sig : list byte) (c : byte),
        In (mkAlgs sigAlg hashAlg, c) algsToPrefix ->
        len armored <= maxArmoredSize ->
        pem_Decode armored = Some block ->
        Type_ block = "SSH SIGNATURE"%string ->
        parseSignatureBlob (Bytes block) = Ret (Ok (sigAlg, hashAlg, Some sig)) ->
        exists token,
          Encode pem_Decode armored = Ret (Ok token) /\
          Decode token = Ret (Ok (mkAlgs sigAlg hashAlg, Some sig))).
Proof.
  assert (Hp : parseSignatureBlob (Bytes (sample_block []))
               = Ret (Ok ("ssh-ed25519"%string, "sha512"%string, Some [])))
    by (vm_compute; reflexivity).
  assert (He : Encode (sample_unwrap []) sample_armored = Ret (Ok "e"%string))
    by (vm_compute; reflexivity).
  repeat split; try assumption.
  - left. reflexivity.
  - intros H.
    destruct (H (sample_unwrap []) sample_armored (sample_block [])
                "ssh-ed25519"%string "sha512"%string [] "e"%byte) as (token & Ht & Hd).
    + left. reflexivity.
    + vm_compute. discriminate.
    + reflexivity.
    + reflexivity.
    + exact Hp.
    + rewrite He in Ht. injection Ht as <-. vm_compute in Hd. discriminate.
Qed.

(** C2.  An envelope whose parsed fields are the ssh-ed25519 scheme with
    sha512 and the signature bytes 1, 2, 3 encodes to [e] followed by the
    unpadded URL-safe base64 of those bytes, which is [eAQID], and decoding
    that string returns the same pair and the same bytes. *)
Theorem ed25519_scenario (pem_Decode : slice -> option Block) (armored : slice)
        (block : Block) :
  len armored <= maxArmoredSize ->
  pem_Decode armored = Some block ->
  Type_ block = "SSH SIGNATURE"%string ->
  parseSignatureBlob (Bytes block)
    = Ret (Ok (SigEd25519, HashSHA512, Some [x01; x02; x03])) ->
  Encode pem_Decode armored
    = Ret (Ok (String.append "e" (RawURLEncoding.EncodeToString (Some [x01; x02; x03])))) /\
  String.append "e" (RawURLEncoding.EncodeToString (Some [x01; x02; x03])) = "eAQID"%string /\
  Decode (String.append "e" (RawURLEncoding.EncodeToString (Some [x01; x02; x03])))
    = Ret (Ok (mkAlgs SigEd25519 HashSHA512, Some [x01; x02; x03])).
Proof.
  intros Hlen Hpem Hty Hparse. split; [|split].
  - rewrite (Encode_accepted pem_Decode armored block _ _ _ PrefixEd25519
               Hlen Hpem Hty Hparse); reflexivity.
  - reflexivity.
  - vm_compute. reflexivity.
Qed.

Lemma ed25519_scenario_witness :
  Encode (sample_unwrap sample_sig) sample_armored
    = Ret (Ok (String.append "e" (RawURLEncoding.EncodeToString (Some [x01; x02; x03])))) /\
  String.append "e" (RawURLEncoding.EncodeToString (Some [x01; x02; x03])) = "eAQID"%string /\
  Decode (String.append "e" (RawURLEncoding.EncodeToString (Some [x01; x02; x03])))
    = Ret (Ok (mkAlgs SigEd25519 HashSHA512, Some [x01; x02; x03])).
Proof.
  apply (ed25519_scenario (sample_unwrap sample_sig) sample_armored
           (sample_block sample_sig)).
  - vm_compute. discriminate.
  - reflexivity.
  - reflexivity.
  - vm_compute. reflexivity.
Defined.

Lemma readString_Some_inv (b d r : list byte) :
  readString (Some b) = Ret (Some d, Some r) -> b = sshString d ++ r /\ fits d.
Proof.
  intros H.
  destruct (readString_cases (Some b)) as [E|(d' & r' & E & Hb & Hf)];
    rewrite E in H; [discriminate|].
  injection H as <- <-. split; assumption.
Qed.

(** C7.  Inside a well-formed payload, when [readString] reads the
    algorithm name and then the signature data from the signature blob, the
    bytes [rest] left in the signature blob are appended, unchanged and in
    order, to the signature data the parser returns; with nothing left the
    signature data is returned as read. *)
Theorem trailing_bytes_appended
        (pk ns rsv hashAlg sigBlob extra sigAlg r1 sigData rest : list byte) :
  fits pk -> fits ns -> fits rsv -> fits hashAlg -> fits sigBlob ->
  readString (Some sigBlob) = Ret (Some sigAlg, Some r1) ->
  readString (Some r1) = Ret (Some sigData, Some rest) ->
  sigBlob = sshString sigAlg ++ sshString sigData ++ rest /\
  parseSignatureBlob (Some (payload pk ns rsv hashAlg sigBlob ++ extra))
    = Ret (Ok (string_of_list_byte sigAlg, string_of_list_byte hashAlg,
               Some (sigData ++ rest))) /\
  (rest = [] ->
   parseSignatureBlob (Some (payload pk ns rsv hashAlg sigBlob ++ extra))
     = Ret (Ok (string_of_list_byte sigAlg, string_of_list_byte hashAlg, Some sigData))).
Proof.
  intros Hpk Hns Hrsv Hh Hsb H1 H2.
  apply readString_Some_inv in H1. destruct H1 as [E1 _].
  apply readString_Some_inv in H2. destruct H2 as [E2 _].
  assert (E : sigBlob = sigBlobOf sigAlg sigData rest)
    by (unfold sigBlobOf; congruence).
  split; [exact E|].
  assert (P : parseSignatureBlob (Some (payload pk ns rsv hashAlg sigBlob ++ extra))
              = Ret (Ok (string_of_list_byte sigAlg, string_of_list_byte hashAlg,
                         Some (sigData ++ rest)))).
  { rewrite E in *. apply parse_payload; assumption. }
  split; [exact P|].
  intros ->. rewrite P, app_nil_r. reflexivity.
Qed.

Lemma trailing_bytes_appended_witness :
  sample_sk_sigBlob
    = sshString (bs "sk-ssh-ed25519@openssh.com") ++ sshString sample_sig ++ sample_sk_trailer /\
  parseSignatureBlob
    (Some (payload (bs "key") (bs "file") [] (bs "sha512") sample_sk_sigBlob ++ []))
    = Ret (Ok (string_of_list_byte (bs "sk-ssh-ed25519@openssh.com"),
               string_of_list_byte (bs "sha512"),
               Some (sample_sig ++ sample_sk_trailer))) /\
  (sample_sk_trailer = [] ->
   parseSignatureBlob
     (Some (payload (bs "key") (bs "file") [] (bs "sha512") sample_sk_sigBlob ++ []))
     = Ret (Ok (string_of_list_byte (bs "sk-ssh-ed25519@openssh.com"),
                string_of_list_byte (bs "sha512"), Some sample_sig))).
Proof.
  apply (trailing_bytes_appended (bs "key") (bs "file") [] (bs "sha512")
           sample_sk_sigBlob [] (bs "sk-ssh-ed25519@openssh.com")
           (sshString sample_sig ++ sample_sk_trailer) sample_sig sample_sk_trailer);
    try (unfold fits; vm_compute; reflexivity).
Defined.

(** C8, as the code has it.  A string of exactly two bytes whose second
    byte is neither LF nor CR is rejected by [Decode]: with the unknown
    prefix error, or with the base64 error at offset 0. *)
Theorem Decode_length_two (s : string) :
  strlen s = 2 ->
  str_index s 1 <> Ret "010"%byte ->
  str_index s 1 <> Ret "013"%byte ->
  exists c0,
    str_index s 0 = Ret c0 /\
    (Decode s = Ret (Err (ErrUnknownPrefix c0)) \/
     Decode s = Ret (Err (ErrDecodeSignature (base64.CorruptInput 0)))).
Proof.
  intros Hlen Hlf Hcr.
  assert (Es : s = string_of_list_byte (list_byte_of_string s))
    by (symmetry; apply string_of_list_byte_of_string).
  unfold strlen in Hlen.
  destruct (list_byte_of_string s) as [|c0 [|c1 [|c2 l]]] eqn:El;
    cbn [List.length] in Hlen; try lia.
  assert (I0 : str_index s 0 = Ret c0)
    by (unfold str_index, strlen; rewrite El; reflexivity).
  assert (I1 : str_index s 1 = Ret c1)
    by (unfold str_index, strlen; rewrite El; reflexivity).
  rewrite I1 in Hlf, Hcr.
  exists c0. split; [exact I0|].
  rewrite Es, Decode_cons2.
  destruct (row_of algsToPrefix c0) as [k|]; [|left; reflexivity].
  destruct (String.eqb (Sig k) ""); [left; reflexivity|].
  right. cbn [RawURLEncoding.decode].
  destruct (negb (RawURLEncoding.decodeMap c1 =? 255)); [reflexivity|].
  destruct (Byte.eqb c1 "010") eqn:E1; [apply byte_eqb_eq in E1; congruence|].
  destruct (Byte.eqb c1 "013") eqn:E2; [apply byte_eqb_eq in E2; congruence|].
  reflexivity.
Qed.

Lemma Decode_length_two_witness :
  exists c0,
    str_index "eA" 0 = Ret c0 /\
    (Decode "eA" = Ret (Err (ErrUnknownPrefix c0)) \/
     Decode "eA" = Ret (Err (ErrDecodeSignature (base64.CorruptInput 0)))).
Proof.
  apply (Decode_length_two "eA"); vm_compute; [reflexivity | discriminate | discriminate].
Defined.

(** C8 as stated fails: the two-byte string made of the prefix [e] and a
    line feed passes the length check, the base64 decoder skips the line
    feed, and [Decode] returns the ed25519 pair with no signature bytes. *)
Lemma Decode_accepts_prefix_and_newline :
  strlen (String "e" (String "010" "")) = 2 /\
  Decode (String "e" (String "010" ""))
    = Ret (Ok (mkAlgs "ssh-ed25519" "sha512", Some [])) /\
  Decode (String "e" (String "013" ""))
    = Ret (Ok (mkAlgs "ssh-ed25519" "sha512", Some [])).
Proof. repeat split; vm_compute; reflexivity. Qed.

(** ** Truncated payloads *)

Lemma app_prefix_split (A : Type) (p q a b : list A) :
  p ++ q = a ++ b -> (List.length a <= List.length p)%nat ->
  exists p', p = a ++ p' /\ b = p' ++ q.
Proof.
  intros E Hle. exists (skipn (List.length a) p).
  assert (Ep : p = a ++ skipn (List.length a) p).
  { rewrite <- (firstn_skipn (List.length a) p) at 1. f_equal.
    apply (f_equal (firstn (List.length a))) in E.
    rewrite !firstn_app in E.
    replace (List.length a - List.length p)%nat with 0%nat in E by lia.
    rewrite Nat.sub_diag, firstn_all, !firstn_O, !app_nil_r in E. exact E. }
  split; [exact Ep|].
  rewrite Ep in E at 1. rewrite <- app_assoc in E.
  apply app_inv_head in E. symmetry. exact E.
Qed.

(** Past the signature blob field the parser looks at nothing. *)
Lemma afterHeader_extra (pk ns rsv hashAlg sigBlob x x' : list byte) :
  fits pk -> fits ns -> fits rsv -> fits hashAlg -> fits sigBlob ->
  afterHeader (Some (sshString pk ++ sshString ns ++ sshString rsv ++ sshString hashAlg
                       ++ sshString sigBlob ++ x))
  = afterHeader (Some (sshString pk ++ sshString ns ++ sshString rsv ++ sshString hashAlg
                         ++ sshString sigBlob ++ x')).
Proof.
  intros Hpk Hns Hrsv Hh Hsb. unfold afterHeader.
  rewrite !skipStrings_3 by assumption. cbn [bind is_nil].
  rewrite !(readString_sshString hashAlg) by assumption. cbn [bind].
  rewrite !(readString_sshString sigBlob) by assumption. reflexivity.
Qed.

Lemma afterHeader_cut (pk ns rsv hashAlg sigBlob extra p q : list byte) :
  fits pk -> fits ns -> fits rsv -> fits hashAlg -> fits sigBlob ->
  p ++ q = sshString pk ++ sshString ns ++ sshString rsv ++ sshString hashAlg
             ++ sshString sigBlob ++ extra ->
  afterHeader (Some p) =
  if (10 + List.length p <? skipped_end pk ns rsv)%nat then Ret (Err ErrTruncated)
  else if (10 + List.length p
           <? skipped_end pk ns rsv + List.length (sshString hashAlg)
              + List.length (sshString sigBlob))%nat
       then Ret (Err ErrInvalidSigBlob)
       else afterHeader (Some (p ++ q)).
Proof.
  intros Hpk Hns Hrsv Hh Hsb E. unfold skipped_end.
  cut_field readString_cut Hpk E p1 E1 Hr1 Hlen.
  2:{ destruct (Nat.ltb_spec (10 + List.length p)
                  (10 + List.length (sshString pk) + List.length (sshString ns)
                   + List.length (sshString rsv))); [|lia].
      unfold afterHeader. cbn [skipStrings]. rewrite Hr1. reflexivity. }
  cut_field readString_cut Hns E1 p2 E2 Hr2 Hlen.
  2:{ rewrite length_app.
      destruct (Nat.ltb_spec (10 + (List.length (sshString pk) + List.length p1))
                  (10 + List.length (sshString pk) + List.length (sshString ns)
                   + List.length (sshString rsv))); [|lia].
      unfold afterHeader. cbn [skipStrings]. rewrite Hr1. cbn [bind].
      rewrite Hr2. reflexivity. }
  cut_field readString_cut Hrsv E2 p3 E3 Hr3 Hlen.
  2:{ rewrite !length_app.
      destruct (Nat.ltb_spec
                  (10 + (List.length (sshString pk)
                         + (List.length (sshString ns) + List.length p2)))
                  (10 + List.length (sshString pk) + List.length (sshString ns)
                   + List.length (sshString rsv))); [|lia].
      unfold afterHeader. cbn [skipStrings]. rewrite Hr1. cbn [bind].
      rewrite Hr2. cbn [bind]. rewrite Hr3. reflexivity. }
  assert (Hskip : forall x, skipStrings 3
                    (Some (sshString pk ++ sshString ns ++ sshString rsv ++ x)) = Ret (Some x))
    by (intros x; apply skipStrings_3; assumption).
  cut_field readString_cut Hh E3 p4 E4 Hr4 Hlen.
  2:{ rewrite !length_app.
      destruct (Nat.ltb_spec
                  (10 + (List.length (sshString pk)
                         + (List.length (sshString ns)
                            + (List.length (sshString rsv) + List.length p3))))
                  (10 + List.length (sshString pk) + List.length (sshString ns)
                   + List.length (sshString rsv))); [lia|].
      destruct (Nat.ltb_spec
                  (10 + (List.length (sshString pk)
                         + (List.length (sshString ns)
                            + (List.length (sshString rsv) + List.length p3))))
                  (10 + List.length (sshString pk) + List.length (sshString ns)
                   + List.length (sshString rsv) + List.length (sshString hashAlg)
                   + List.length (sshString sigBlob))); [|lia].
      unfold afterHeader. rewrite Hskip. cbn [bind is_nil].
      rewrite Hr4. reflexivity. }
  cut_field readString_cut Hsb E4 p5 E5 Hr5 Hlen.
  2:{ rewrite !length_app.
      destruct (Nat.ltb_spec
                  (10 + (List.length (sshString pk)
                         + (List.length (sshString ns)
                            + (List.length (sshString rsv)
                               + (List.length (sshString hashAlg) + List.length p4)))))
                  (10 + List.length (sshString pk) + List.length (sshString ns)
                   + List.length (sshString rsv))); [lia|].
      destruct (Nat.ltb_spec
                  (10 + (List.length (sshString pk)
                         + (List.length (sshString ns)
                            + (List.length (sshString rsv)
                               + (List.length (sshString hashAlg) + List.length p4)))))
                  (10 + List.length (sshString pk) + List.length (sshString ns)
                   + List.length (sshString rsv) + List.length (sshString hashAlg)
                   + List.length (sshString sigBlob))); [|lia].
      unfold afterHeader. rewrite Hskip. cbn [bind is_nil].
      rewrite Hr4. cbn [bind]. rewrite Hr5. reflexivity. }
  rewrite !length_app.
  destruct (Nat.ltb_spec
              (10 + (List.length (sshString pk)
                     + (List.length (sshString ns)
                        + (List.length (sshString rsv)
                           + (List.length (sshString hashAlg)
                              + (List.length (sshString sigBlob) + List.length p5))))))
              (10 + List.length (sshString pk) + List.length (sshString ns)
               + List.length (sshString rsv))); [lia|].
  destruct (Nat.ltb_spec
              (10 + (List.length (sshString pk)
                     + (List.length (sshString ns)
                        + (List.length (sshString rsv)
                           + (List.length (sshString hashAlg)
                              + (List.length (sshString sigBlob) + List.length p5))))))
              (10 + List.length (sshString pk) + List.length (sshString ns)
               + List.length (sshString rsv) + List.length (sshString hashAlg)
               + List.length (sshString sigBlob))); [lia|].
  rewrite <- !app_assoc. apply afterHeader_extra; assumption.
Qed.

(** C3, as the code has it.  For every strict prefix [p] of an accepted
    payload the parser returns without a panic.  If the cut falls before
    the end of the signature blob field the parser fails, with the magic
    error on fewer than 6 bytes, the version error on 6 to 9 bytes, the
    truncation error when the cut is inside the three skipped fields, and
    the invalid-signature-blob error when it is inside the hash algorithm
    or signature blob field.  If only bytes after the signature blob field
    are cut, the prefix is accepted with the result of the whole payload. *)
Theorem truncated_payload (pk ns rsv hashAlg sigBlob extra p q : list byte)
        (r : string * string * slice) :
  fits pk -> fits ns -> fits rsv -> fits hashAlg -> fits sigBlob ->
  parseSignatureBlob (Some (payload pk ns rsv hashAlg sigBlob ++ extra)) = Ret (Ok r) ->
  p ++ q = payload pk ns rsv hashAlg sigBlob ++ extra ->
  q <> [] ->
  parseSignatureBlob (Some p) =
  if (List.length p <? List.length (payload pk ns rsv hashAlg sigBlob))%nat
  then Ret (Err (truncation_error pk ns rsv (List.length p)))
  else Ret (Ok r).
Proof.
  intros Hpk Hns Hrsv Hh Hsb Hacc E Hq.
  assert (HL : List.length (payload pk ns rsv hashAlg sigBlob)
               = (skipped_end pk ns rsv + List.length (sshString hashAlg)
                  + List.length (sshString sigBlob))%nat).
  { unfold payload, skipped_end. rewrite !length_app.
    change (List.length magic) with 6%nat.
    change (List.length (PutUint32 1)) with 4%nat. lia. }
  assert (H10 : (10 <= skipped_end pk ns rsv)%nat) by (unfold skipped_end; lia).
  rewrite payload_app in E, Hacc. rewrite parse_header in Hacc.
  unfold truncation_error. rewrite HL.
  destruct (Nat.ltb_spec (List.length p) 6) as [H6|H6].
  { destruct (Nat.ltb_spec (List.length p)
                (skipped_end pk ns rsv + List.length (sshString hashAlg)
                 + List.length (sshString sigBlob))); [|lia].
    apply parse_short_magic. rewrite len_Some. lia. }
  destruct (Nat.ltb_spec (List.length p) 10) as [H10'|H10'].
  { destruct (Nat.ltb_spec (List.length p)
                (skipped_end pk ns rsv + List.length (sshString hashAlg)
                 + List.length (sshString sigBlob))); [|lia].
    destruct (app_prefix_split _ p q magic _ E) as (p' & Ep & _); [exact H6|].
    subst p. rewrite length_app in H10'. change (List.length magic) with 6%nat in H10'.
    destruct p' as [|v0 [|v1 [|v2 [|v3 y]]]]; try reflexivity.
    cbn [List.length] in H10'. lia. }
  rewrite app_assoc in E.
  destruct (app_prefix_split _ p q (magic ++ PutUint32 1) _ E) as (p' & Ep & E').
  { exact H10'. }
  subst p. rewrite <- app_assoc, parse_header.
  symmetry in E'.
  rewrite (afterHeader_cut pk ns rsv hashAlg sigBlob extra p' q) by assumption.
  rewrite !length_app.
  change (List.length magic) with 6%nat. change (List.length (PutUint32 1)) with 4%nat.
  change (6 + (4 + List.length p'))%nat with (10 + List.length p')%nat.
  destruct (Nat.ltb_spec (10 + List.length p') (skipped_end pk ns rsv)) as [H3|H3].
  { destruct (Nat.ltb_spec (10 + List.length p')
                (skipped_end pk ns rsv + List.length (sshString hashAlg)
                 + List.length (sshString sigBlob))); [reflexivity|lia]. }
  destruct (Nat.ltb_spec (10 + List.length p')
              (skipped_end pk ns rsv + List.length (sshString hashAlg)
               + List.length (sshString sigBlob))); [reflexivity|].
  rewrite E'. exact Hacc.
Qed.

Lemma truncated_payload_witness :
  parseSignatureBlob (Some (firstn 30 (sample_payload sample_sig))) =
  if (List.length (firstn 30 (sample_payload sample_sig))
      <? List.length (payload (bs "key") (bs "file") [] (bs "sha512")
                              (sigBlobOf (bs "ssh-ed25519") sample_sig [])))%nat
  then Ret (Err (truncation_error (bs "key") (bs "file") []
                   (List.length (firstn 30 (sample_payload sample_sig)))))
  else Ret (Ok ("ssh-ed25519"%string, "sha512"%string, Some sample_sig)).
Proof.
  apply (truncated_payload (bs "key") (bs "file") [] (bs "sha512")
           (sigBlobOf (bs "ssh-ed25519") sample_sig []) []
           (firstn 30 (sample_payload sample_sig))
           (skipn 30 (sample_payload sample_sig)));
    try (unfold fits; vm_compute; reflexivity).
  vm_compute. discriminate.
Defined.

(** C3 as stated fails in two ways.  A prefix too short to hold the magic
    preamble or the version fails with those errors, and one cut inside the
    hash or signature field with the invalid-signature-blob error, none of
    which is the truncation error; and a payload accepted with bytes after
    its signature blob field has a strict prefix that is accepted too. *)
Lemma truncation_is_not_always_the_truncation_error :
  parseSignatureBlob (Some (sample_payload sample_sig))
    = Ret (Ok ("ssh-ed25519"%string, "sha512"%string, Some sample_sig)) /\
  parseSignatureBlob (Some (firstn 0 (sample_payload sample_sig))) = Ret (Err ErrMagic) /\
  parseSignatureBlob (Some (firstn 8 (sample_payload sample_sig))) = Ret (Err ErrVersion) /\
  parseSignatureBlob (Some (firstn 15 (sample_payload sample_sig))) = Ret (Err ErrTruncated) /\
  parseSignatureBlob (Some (firstn 30 (sample_payload sample_sig)))
    = Ret (Err ErrInvalidSigBlob) /\
  parseSignatureBlob (Some (sample_payload sample_sig ++ [x00]))
    = Ret (Ok ("ssh-ed25519"%string, "sha512"%string, Some sample_sig)) /\
  ~ (forall p q : list byte,
        p ++ q = sample_payload sample_sig -> q <> [] ->
        parseSignatureBlob (Some p) = Ret (Err ErrTruncated)) /\
  ~ (forall p q : list byte,
        p ++ q = sample_payload sample_sig ++ [x00] -> q <> [] ->
        exists e, parseSignatureBlob (Some p) = Ret (Err e)).
Proof.
  do 6 (split; [vm_compute; reflexivity|]).
  split.
  - intros H.
    assert (H' : parseSignatureBlob (Some []) = Ret (Err ErrTruncated)).
    { apply (H [] (sample_payload sample_sig)); [reflexivity|]. discriminate. }
    vm_compute in H'. discriminate.
  - intros H.
    destruct (H (sample_payload sample_sig) [x00]) as [e He];
      [reflexivity | discriminate |].
    vm_compute in He. discriminate.
Qed.

(** ** The skipped fields do not matter *)

Lemma skipStrings_differ (k : nat) (b b' : list byte) :
  skipped_differ k b b' -> skipStrings k (Some b) = skipStrings k (Some b').
Proof.
  induction 1 as [k b|k n d d' r r' Hn Hd Hd' _ IH|k n d d' Hn Hd Hd'].
  - reflexivity.
  - cbn [skipStrings]. rewrite !readString_hdr by assumption.
    rewrite !length_app, !Nat2Z.inj_add, Hd, Hd'.
    destruct (Z.ltb_spec (n + Z.of_nat (List.length r)) n); [lia|].
    destruct (Z.ltb_spec (n + Z.of_nat (List.length r')) n); [lia|].
    cbn [bind].
    replace (Z.to_nat n) with (List.length d) at 1 by lia.
    replace (Z.to_nat n) with (List.length d') by lia.
    rewrite !skipn_app, !Nat.sub_diag, !skipn_all. cbn [skipn app]. exact IH.
  - cbn [skipStrings]. rewrite !readString_hdr by assumption.
    rewrite Hd'.
    destruct (Z.ltb_spec (Z.of_nat (List.length d)) n); [|lia]. reflexivity.
Qed.

(** C9.  Two payloads with the same ten header bytes that differ only in
    the data bytes of the three skipped fields (public key, namespace,
    reserved), each field keeping its declared length, parse to the same
    outcome: the same names and signature bytes, or the same error. *)
Theorem skipped_fields_ignored (hdr x x' : list byte) :
  List.length hdr = 10%nat ->
  skipped_differ 3 x x' ->
  parseSignatureBlob (Some (hdr ++ x)) = parseSignatureBlob (Some (hdr ++ x')).
Proof.
  intros Hhdr Hd.
  destruct hdr as [|m0 [|m1 [|m2 [|m3 [|m4 [|m5 [|v0 [|v1 [|v2 [|v3 [|]]]]]]]]]]];
    try discriminate.
  cbn [app]. rewrite !parse_cons6.
  destruct (negb _); [reflexivity|].
  destruct (negb _); [reflexivity|].
  unfold afterHeader. rewrite (skipStrings_differ 3 x x' Hd). reflexivity.
Qed.

Lemma skipped_fields_ignored_witness :
  parseSignatureBlob
    (Some ((magic ++ PutUint32 1)
             ++ PutUint32 3 ++ bs "key" ++ PutUint32 4 ++ bs "file" ++ PutUint32 0 ++ []
             ++ sample_tail))
  = parseSignatureBlob
      (Some ((magic ++ PutUint32 1)
               ++ PutUint32 3 ++ bs "KEY" ++ PutUint32 4 ++ bs "mail" ++ PutUint32 0 ++ []
               ++ sample_tail)).
Proof.
  apply skipped_fields_ignored.
  - reflexivity.
  - apply sd_field; [vm_compute; intuition discriminate | reflexivity | reflexivity |].
    apply sd_field; [vm_compute; intuition discriminate | reflexivity | reflexivity |].
    apply sd_field; [vm_compute; intuition discriminate | reflexivity | reflexivity |].
    apply sd_same.
Defined.

(** ** The order of the range over the map

Go ranges over a map in an unspecified order.  [init] writes a different
    array slot for every row, so every order builds the same table. *)

Lemma set_at_length (t : table) (n : nat) (v : Algs) :
  (n < List.length t)%nat -> List.length (set_at t n v) = List.length t.
Proof.
  intros H. unfold set_at.
  rewrite length_app, firstn_length_le by lia.
  cbn [List.length]. rewrite length_skipn. lia.
Qed.

Lemma nth_error_set_at (t : table) (n : nat) (v : Algs) (j : nat) :
  (n < List.length t)%nat ->
  nth_error (set_at t n v) j = if (j =? n)%nat then Some v else nth_error t j.
Proof.
  intros H. unfold set_at.
  assert (HL : List.length (firstn n t) = n) by (apply firstn_length_le; lia).
  destruct (Nat.eqb_spec j n) as [->|Hne].
  - rewrite nth_error_app2 by lia. rewrite HL, Nat.sub_diag. reflexivity.
  - destruct (Nat.lt_ge_cases j n) as [Hlt|Hge].
    + rewrite nth_error_app1 by lia. rewrite nth_error_firstn.
      destruct (Nat.ltb_spec j n); [reflexivity | lia].
    + rewrite nth_error_app2 by lia. rewrite HL.
      destruct (j - n)%nat as [|m] eqn:Em; [lia|].
      cbn [nth_error]. rewrite nth_error_skipn. f_equal. lia.
Qed.

Lemma array_set_eq (t : table) (i : byte) (v : Algs) :
  array_set t i v =
  if (Z.to_nat (u8 i) <? List.length t)%nat then Ret (set_at t (Z.to_nat (u8 i)) v)
  else Panic.
Proof. reflexivity. Qed.

Lemma array_set_comm (t : table) (i j : byte) (a b : Algs) :
  i <> j ->
  (t1 <- array_set t i a ;; array_set t1 j b)
  = (t2 <- array_set t j b ;; array_set t2 i a).
Proof.
  intros Hij.
  assert (Hn : Z.to_nat (u8 i) <> Z.to_nat (u8 j)).
  { intros E. apply Hij. rewrite <- (to_byte_u8 i), <- (to_byte_u8 j).
    pose proof (u8_range i). pose proof (u8_range j). f_equal. lia. }
  rewrite !array_set_eq.
  destruct (Nat.ltb_spec (Z.to_nat (u8 i)) (List.length t)) as [Hi|Hi];
    destruct (Nat.ltb_spec (Z.to_nat (u8 j)) (List.length t)) as [Hj|Hj];
    cbn [bind]; rewrite ?array_set_eq, ?set_at_length by assumption.
  - destruct (Nat.ltb_spec (Z.to_nat (u8 i)) (List.length t)); [|lia].
    destruct (Nat.ltb_spec (Z.to_nat (u8 j)) (List.length t)); [|lia].
    f_equal. apply nth_error_ext. intros n.
    rewrite !nth_error_set_at by (rewrite ?set_at_length; assumption).
    destruct (Nat.eqb_spec n (Z.to_nat (u8 i))), (Nat.eqb_spec n (Z.to_nat (u8 j)));
      try reflexivity. lia.
  - destruct (Nat.ltb_spec (Z.to_nat (u8 j)) (List.length t)); [lia|]. reflexivity.
  - destruct (Nat.ltb_spec (Z.to_nat (u8 i)) (List.length t)); [lia|]. reflexivity.
  - reflexivity.
Qed.

Lemma init_range_order (m m' : list (Algs * byte)) :
  Permutation m m' -> NoDup (map snd m) ->
  forall t, init_range m t = init_range m' t.
Proof.
  induction 1 as [|[a c] m m' HP IH|[a c] [a' c'] m|m m' m'' HP1 IH1 HP2 IH2];
    intros Hnd t.
  - reflexivity.
  - cbn [init_range]. cbn [map snd] in Hnd. inversion Hnd; subst.
    destruct (array_set t c a); cbn [bind]; [apply IH; assumption | reflexivity].
  - cbn [init_range]. cbn [map snd] in Hnd. inversion Hnd as [|? ? Hnotin _]; subst.
    assert (Hne : c' <> c) by (intros ->; apply Hnotin; left; reflexivity).
    pose proof (array_set_comm t c' c a' a Hne) as Hc.
    destruct (array_set t c' a') as [t1|], (array_set t c a) as [t2|]; cbn [bind] in *.
    + destruct (array_set t1 c a) as [t3|], (array_set t2 c' a') as [t4|];
        cbn [bind]; congruence.
    + destruct (array_set t1 c a); [discriminate | reflexivity].
    + destruct (array_set t2 c' a'); [discriminate | reflexivity].
    + reflexivity.
  - rewrite IH1 by assumption. apply IH2.
    apply (Permutation_NoDup (Permutation_map snd HP1)). exact Hnd.
Qed.

(** Whatever order the range takes, [init] leaves [PrefixToAlgs]. *)
Lemma init_order_irrelevant (m : list (Algs * byte)) :
  Permutation algsToPrefix m -> init_range m zeroTable = Ret PrefixToAlgs.
Proof.
  intros HP. rewrite <- (init_range_order _ _ HP prefixes_NoDup).
  exact init_PrefixToAlgs.
Qed.

(** * Further properties of the parser *)

Lemma afterHeader_after_skip (b : slice) (r : list byte) :
  skipStrings 3 b = Ret (Some r) ->
  (exists res, afterHeader b = Ret (Ok res)) \/
  afterHeader b = Ret (Err ErrInvalidSigBlob).
Proof.
  intros Hs. unfold afterHeader. rewrite Hs. cbn [bind is_nil].
  destruct (readString_no_panic (Some r)) as [[h b2] E2]. rewrite E2. cbn [bind].
  destruct (readString_no_panic b2) as [[sb b3] E3]. rewrite E3. cbn [bind].
  destruct (is_nil sb); [right; reflexivity|].
  destruct (readString_no_panic sb) as [[sa sb1] E4]. rewrite E4. cbn [bind].
  destruct (readString_no_panic sb1) as [[sd sb2] E5]. rewrite E5. cbn [bind].
  destruct (is_nil sd); [right; reflexivity|]. left. eauto.
Qed.

Lemma skipStrings_nil (k : nat) : skipStrings k None = Ret None.
Proof. induction k as [|k IH]; [reflexivity|]. cbn [skipStrings]. exact IH. Qed.

(** The loop over the three skipped fields: nil once any read has failed,
    else the buffer after three well-formed fields. *)
Lemma skipStrings_3_cases (x : list byte) :
  skipStrings 3 (Some x) = Ret None \/
  exists pk ns rsv r,
    fits pk /\ fits ns /\ fits rsv /\
    x = sshString pk ++ sshString ns ++ sshString rsv ++ r /\
    skipStrings 3 (Some x) = Ret (Some r).
Proof.
  cbn [skipStrings].
  destruct (readString_cases (Some x)) as [E|(pk & r1 & E & Hb & Hf)]; rewrite E;
    cbn [bind]; [left; reflexivity|].
  destruct (readString_cases (Some r1)) as [E1|(ns & r2 & E1 & Hb1 & Hf1)]; rewrite E1;
    cbn [bind]; [left; reflexivity|].
  destruct (readString_cases (Some r2)) as [E2|(rsv & r3 & E2 & Hb2 & Hf2)]; rewrite E2;
    cbn [bind]; [left; reflexivity|].
  right. exists pk, ns, rsv, r3. cbn [elems] in *.
  repeat split; try assumption. congruence.
Qed.

Lemma afterHeader_outcomes (b : slice) :
  (exists res, afterHeader b = Ret (Ok res)) \/
  afterHeader b = Ret (Err ErrTruncated) \/
  afterHeader b = Ret (Err ErrInvalidSigBlob).
Proof.
  destruct (skipStrings_no_panic 3 b) as [[r|] E].
  - destruct (afterHeader_after_skip b r E) as [H|H]; auto.
  - right. left. unfold afterHeader. rewrite E. reflexivity.
Qed.

(** X1.  The parser returns on every buffer, nil or not, whatever its
    bytes: it never panics, and it returns a result or one of the four
    parse errors. *)
Theorem parseSignatureBlob_outcomes (blob : slice) :
  (exists res, parseSignatureBlob blob = Ret (Ok res)) \/
  parseSignatureBlob blob = Ret (Err ErrMagic) \/
  parseSignatureBlob blob = Ret (Err ErrVersion) \/
  parseSignatureBlob blob = Ret (Err ErrTruncated) \/
  parseSignatureBlob blob = Ret (Err ErrInvalidSigBlob).
Proof.
  destruct blob as [[|m0 [|m1 [|m2 [|m3 [|m4 [|m5 x]]]]]]|];
    try (right; left; apply parse_short_magic; rewrite ?len_Some; cbn; lia).
  rewrite parse_cons6.
  destruct (negb _); [auto|].
  destruct x as [|v0 [|v1 [|v2 [|v3 y]]]]; auto.
  destruct (negb _); [auto|].
  destruct (afterHeader_outcomes (Some y)) as [H|[H|H]]; auto.
Qed.

(** X2.  The payloads the parser accepts are exactly the well-formed ones:
    the magic preamble, version 1, five length-prefixed fields of which the
    last holds the algorithm name, the signature data and a trailer, and
    then any bytes at all.  The names come back as they are in the payload
    and the signature as a non-nil slice. *)
Theorem parseSignatureBlob_accepts_iff (blob : slice) (a h : string) (s : slice) :
  parseSignatureBlob blob = Ret (Ok (a, h, s)) <->
  exists pk ns rsv hashAlg sigAlg sigData trailer extra,
    elems blob = payload pk ns rsv hashAlg (sigBlobOf sigAlg sigData trailer) ++ extra /\
    fits pk /\ fits ns /\ fits rsv /\ fits hashAlg /\
    fits (sigBlobOf sigAlg sigData trailer) /\
    a = string_of_list_byte sigAlg /\ h = string_of_list_byte hashAlg /\
    s = Some (sigData ++ trailer).
Proof.
  split; [apply parseSignatureBlob_inv|].
  intros (pk & ns & rsv & hashAlg & sigAlg & sigData & trailer & extra
          & E & Hpk & Hns & Hrsv & Hh & Hsb & -> & -> & ->).
  destruct blob as [l|]; cbn [elems] in E.
  - subst l. apply parse_payload; assumption.
  - rewrite payload_app in E. discriminate.
Qed.

Lemma afterHeader_not_header_error (b : slice) :
  afterHeader b <> Ret (Err ErrMagic) /\ afterHeader b <> Ret (Err ErrVersion).
Proof.
  destruct (afterHeader_outcomes b) as [[res H]|[H|H]]; rewrite H;
    split; discriminate.
Qed.

Lemma magic_eqb (m0 m1 m2 m3 m4 m5 : byte) :
  String.eqb (string_of_list_byte [m0; m1; m2; m3; m4; m5]) "SSHSIG" = true
  <-> [m0; m1; m2; m3; m4; m5] = magic.
Proof.
  rewrite String.eqb_eq. split.
  - intros E. apply string_of_list_byte_inj. exact E.
  - intros ->. reflexivity.
Qed.

(** X3.  The magic error is raised exactly on the buffers whose first six
    bytes are not [SSHSIG], shorter buffers included; nothing after the
    first six bytes can cause or prevent it. *)
Theorem magic_error_iff (blob : slice) :
  parseSignatureBlob blob = Ret (Err ErrMagic) <-> firstn 6 (elems blob) <> magic.
Proof.
  destruct blob as [[|m0 [|m1 [|m2 [|m3 [|m4 [|m5 x]]]]]]|];
    try (split; [intros _; cbn; discriminate
                | intros _; apply parse_short_magic; rewrite ?len_Some; cbn; lia]).
  rewrite parse_cons6. cbn [elems firstn].
  destruct (String.eqb (string_of_list_byte [m0; m1; m2; m3; m4; m5]) "SSHSIG") eqn:Em;
    cbn [negb].
  - apply magic_eqb in Em. split; [|congruence].
    intros H. exfalso.
    destruct x as [|v0 [|v1 [|v2 [|v3 y]]]]; try discriminate.
    destruct (negb _); [discriminate|].
    exact (proj1 (afterHeader_not_header_error (Some y)) H).
  - split; [|reflexivity]. intros _ E. apply magic_eqb in E. congruence.
Qed.

(** X4.  After the magic preamble, the version error is raised exactly when
    the next four bytes are not the big-endian number 1, a buffer that ends
    before them included. *)
Theorem version_error_iff (x : list byte) :
  parseSignatureBlob (Some (magic ++ x)) = Ret (Err ErrVersion)
  <-> firstn 4 x <> PutUint32 1.
Proof.
  change (magic ++ x)
    with ("S"%byte :: "S"%byte :: "H"%byte :: "S"%byte :: "I"%byte :: "G"%byte :: x).
  rewrite parse_cons6.
  change (negb (String.eqb (string_of_list_byte
            ["S"%byte; "S"%byte; "H"%byte; "S"%byte; "I"%byte; "G"%byte]) "SSHSIG"))
    with false. cbn iota.
  destruct x as [|v0 [|v1 [|v2 [|v3 y]]]];
    try (split; [intros _; cbn; discriminate | reflexivity]).
  cbn [firstn].
  destruct (Z.eqb_spec (be32 v0 v1 v2 v3) 1) as [Ev|Ev]; cbn [negb].
  - split.
    + intros H. exfalso. exact (proj2 (afterHeader_not_header_error (Some y)) H).
    + intros H. exfalso. apply H.
      rewrite <- (PutUint32_be32 v0 v1 v2 v3), Ev. reflexivity.
  - split; [|reflexivity]. intros _ E. apply Ev.
    change (PutUint32 1) with [x00; x00; x00; x01] in E.
    injection E as -> -> -> ->. reflexivity.
Qed.

(** X5.  After a good header, the truncation error is raised exactly when
    the rest of the buffer does not begin with three length-prefixed
    strings: the single nil test after the loop catches a failed read of
    any of the three skipped fields, and nothing else. *)
Theorem truncated_error_iff (x : list byte) :
  parseSignatureBlob (Some (magic ++ PutUint32 1 ++ x)) = Ret (Err ErrTruncated)
  <-> ~ exists pk ns rsv r,
        fits pk /\ fits ns /\ fits rsv /\
        x = sshString pk ++ sshString ns ++ sshString rsv ++ r.
Proof.
  rewrite parse_header.
  destruct (skipStrings_3_cases x) as [E|(pk & ns & rsv & r & Hpk & Hns & Hrsv & Ex & E)].
  - split.
    + intros _ (pk & ns & rsv & r & Hpk & Hns & Hrsv & Ex).
      rewrite Ex, skipStrings_3 in E by assumption. discriminate.
    + intros _. unfold afterHeader. rewrite E. reflexivity.
  - split.
    + intros H. exfalso.
      destruct (afterHeader_after_skip (Some x) r E) as [[res H']|H'];
        rewrite H' in H; discriminate.
    + intros H. exfalso. apply H. exists pk, ns, rsv, r. auto.
Qed.

Lemma sigBlobOf_fits (a d t : list byte) :
  fits (sigBlobOf a d t) -> fits a /\ fits d.
Proof.
  unfold fits, sigBlobOf. rewrite !length_app, !sshString_length. lia.
Qed.

(** X6.  In a payload whose five outer fields are well formed, the
    signature blob decides the outcome: if it is an algorithm name, the
    signature data and a trailer, the parser returns the two names and the
    data followed by the trailer; if it is not (less than eight bytes, or an
    inner length running past its end), the parser fails with the
    invalid-signature-blob error. *)
Theorem signature_blob_decides (pk ns rsv hashAlg sigBlob extra : list byte) :
  fits pk -> fits ns -> fits rsv -> fits hashAlg -> fits sigBlob ->
  (exists sigAlg sigData trailer,
      sigBlob = sigBlobOf sigAlg sigData trailer /\
      parseSignatureBlob (Some (payload pk ns rsv hashAlg sigBlob ++ extra))
        = Ret (Ok (string_of_list_byte sigAlg, string_of_list_byte hashAlg,
                   Some (sigData ++ trailer)))) \/
  ((forall sigAlg sigData trailer, sigBlob <> sigBlobOf sigAlg sigData trailer) /\
   parseSignatureBlob (Some (payload pk ns rsv hashAlg sigBlob ++ extra))
     = Ret (Err ErrInvalidSigBlob)).
Proof.
  intros Hpk Hns Hrsv Hh Hsb.
  assert (Hfail : forall a d t, sigBlob = sigBlobOf a d t ->
            exists r1, readString (Some sigBlob) = Ret (Some a, Some r1) /\
                       readString (Some r1) = Ret (Some d, Some t)).
  { intros a d t E. rewrite E in Hsb. destruct (sigBlobOf_fits a d t Hsb) as [Ha Hd].
    exists (sshString d ++ t). rewrite E. unfold sigBlobOf.
    split; apply readString_sshString; assumption. }
  assert (Hpre : parseSignatureBlob (Some (payload pk ns rsv hashAlg sigBlob ++ extra))
            = ('(sigAlg, sb) <- readString (Some sigBlob) ;;
               '(sigData, sb) <- readString sb ;;
               if is_nil sigData then Ret (Err ErrInvalidSigBlob)
               else
                 let sigData := if 0 <? len sb then append sigData sb else sigData in
                 Ret (Ok (to_string sigAlg, to_string (Some hashAlg), sigData)))).
  { rewrite payload_app, parse_header. unfold afterHeader.
    rewrite skipStrings_3 by assumption. cbn [bind is_nil].
    rewrite readString_sshString by assumption. cbn [bind].
    rewrite readString_sshString by assumption. reflexivity. }
  destruct (readString_cases (Some sigBlob)) as [E1|(a & r1 & E1 & Hb1 & _)].
  { right. split.
    - intros a d t E. destruct (Hfail a d t E) as (r1 & H1 & _). congruence.
    - rewrite Hpre, E1. reflexivity. }
  destruct (readString_cases (Some r1)) as [E2|(d & t & E2 & Hb2 & _)].
  { right. split.
    - intros a' d' t' E. destruct (Hfail a' d' t' E) as (r1' & H1 & H2).
      rewrite E1 in H1. injection H1 as <- <-. congruence.
    - rewrite Hpre, E1. cbn [bind]. rewrite E2. reflexivity. }
  left. exists a, d, t. cbn [elems] in *.
  assert (E : sigBlob = sigBlobOf a d t) by (unfold sigBlobOf; congruence).
  split; [exact E|]. rewrite E in *. apply parse_payload; assumption.
Qed.

Lemma signature_blob_decides_witness :
  (exists sigAlg sigData trailer,
      [x00; x00; x00; x07] = sigBlobOf sigAlg sigData trailer /\
      parseSignatureBlob
        (Some (payload (bs "key") (bs "file") [] (bs "sha512") [x00; x00; x00; x07] ++ []))
        = Ret (Ok (string_of_list_byte sigAlg, string_of_list_byte (bs "sha512"),
                   Some (sigData ++ trailer)))) \/
  ((forall sigAlg sigData trailer,
       [x00; x00; x00; x07] <> sigBlobOf sigAlg sigData trailer) /\
   parseSignatureBlob
     (Some (payload (bs "key") (bs "file") [] (bs "sha512") [x00; x00; x00; x07] ++ []))
     = Ret (Err ErrInvalidSigBlob)).
Proof.
  apply (signature_blob_decides (bs "key") (bs "file") [] (bs "sha512")
           [x00; x00; x00; x07] []); unfold fits; vm_compute; reflexivity.
Defined.

(** X7.  The parser looks at nothing after the signature blob field: two
    buffers that agree up to the end of that field parse to the same
    outcome, whatever follows. *)
Theorem bytes_after_signature_blob_ignored
        (pk ns rsv hashAlg sigBlob extra extra' : list byte) :
  fits pk -> fits ns -> fits rsv -> fits hashAlg -> fits sigBlob ->
  parseSignatureBlob (Some (payload pk ns rsv hashAlg sigBlob ++ extra))
  = parseSignatureBlob (Some (payload pk ns rsv hashAlg sigBlob ++ extra')).
Proof.
  intros. rewrite !payload_app, !parse_header. apply afterHeader_extra; assumption.
Qed.

Lemma bytes_after_signature_blob_ignored_witness :
  parseSignatureBlob (Some (sample_payload sample_sig ++ bs "anything"))
  = parseSignatureBlob (Some (sample_payload sample_sig ++ [])).
Proof.
  apply (bytes_after_signature_blob_ignored (bs "key") (bs "file") [] (bs "sha512")
           (sigBlobOf (bs "ssh-ed25519") sample_sig []));
    unfold fits; vm_compute; reflexivity.
Defined.

(** X8.  [readString] and the length-prefixed writer are inverse: a buffer
    reads as data [d] and rest [r] exactly when it is the four-byte
    big-endian length of [d], then [d], then [r]. *)
Theorem readString_reads_iff (b d r : list byte) :
  readString (Some b) = Ret (Some d, Some r) <-> b = sshString d ++ r /\ fits d.
Proof.
  split; [apply readString_Some_inv|].
  intros [-> Hd]. apply readString_sshString. exact Hd.
Qed.

(** * Further properties of the codec *)

Lemma Encode_Ok_inv (pem_Decode : slice -> option Block) (armored : slice) (tok : string) :
  Encode pem_Decode armored = Ret (Ok tok) ->
  len armored <= maxArmoredSize /\
  exists block a h sig c,
    pem_Decode armored = Some block /\
    Type_ block = "SSH SIGNATURE"%string /\
    parseSignatureBlob (Bytes block) = Ret (Ok (a, h, Some sig)) /\
    In (mkAlgs a h, c) algsToPrefix /\
    tok = string_of_list_byte (c :: RawURLEncoding.Encode sig).
Proof.
  unfold Encode. intros H.
  destruct (Z.ltb_spec maxArmoredSize (len armored)) as [|Hle]; [discriminate|].
  split; [exact Hle|].
  destruct (pem_Decode armored) as [block|]; [|discriminate].
  destruct (String.eqb_spec (Type_ block) "SSH SIGNATURE") as [Ety|]; [|discriminate].
  cbn [negb] in H.
  destruct (parseSignatureBlob_no_panic (Bytes block)) as [[[[a h] s]|e] Ep];
    rewrite Ep in H; cbn [bind] in H; [|discriminate].
  destruct (map_lookup algsToPrefix (mkAlgs a h)) as [c|] eqn:El; [|discriminate].
  apply map_lookup_In in El.
  destruct (parseSignatureBlob_inv _ _ _ _ Ep)
    as (pk & ns & rsv & hashAlg & sigAlg & sigData & trailer & extra & _ & _ & _ & _ & _ & _
        & _ & _ & Es).
  subst s. exists block, a, h, (sigData ++ trailer), c.
  repeat split; try assumption.
  injection H as <-.
  rewrite string_of_rune_ascii by (apply (rows_wellformed _ _ El)).
  unfold RawURLEncoding.EncodeToString. rewrite append_bytes. reflexivity.
Qed.

Lemma Encode_size_ceiling_bound (pem_Decode : slice -> option Block) (armored : slice) :
  8192 < len armored -> Encode pem_Decode armored = Ret (Err ErrTooLarge).
Proof.
  intros H. unfold Encode. change maxArmoredSize with 8192.
  destruct (Z.ltb_spec 8192 (len armored)); [reflexivity | lia].
Qed.

(** X9.  [Encode] returns on every input and every unwrapper, never
    panicking; it returns a token or one of its seven errors: the size
    error, the armor error, one of the four parse errors, or the
    unsupported-algorithm error. *)
Theorem Encode_outcomes (pem_Decode : slice -> option Block) (armored : slice) :
  (exists tok, Encode pem_Decode armored = Ret (Ok tok)) \/
  exists e, Encode pem_Decode armored = Ret (Err e) /\
            (e = ErrTooLarge \/ e = ErrInvalidArmor \/ e = ErrMagic \/ e = ErrVersion \/
             e = ErrTruncated \/ e = ErrInvalidSigBlob \/
             exists a h, e = ErrUnsupported a h /\
                         map_lookup algsToPrefix (mkAlgs a h) = None).
Proof.
  unfold Encode.
  destruct (maxArmoredSize <? len armored); [right; eexists; split; [reflexivity|auto]|].
  destruct (pem_Decode armored) as [block|];
    [|right; eexists; split; [reflexivity|auto]].
  destruct (negb _); [right; eexists; split; [reflexivity|auto]|].
  destruct (parseSignatureBlob_outcomes (Bytes block)) as [[[[a h] s] H]|[H|[H|[H|H]]]];
    rewrite H; cbn [bind];
    try (right; eexists; split; [reflexivity|]; tauto).
  destruct (map_lookup algsToPrefix (mkAlgs a h)) eqn:El.
  - left. eauto.
  - right. eexists. split; [reflexivity|].
    do 6 right. exists a, h. auto.
Qed.

(** X10.  The size error is raised exactly on inputs longer than 8192
    bytes: an input of 8192 bytes is not refused for its size, and no later
    stage reports the size error. *)
Theorem Encode_too_large_iff (pem_Decode : slice -> option Block) (armored : slice) :
  Encode pem_Decode armored = Ret (Err ErrTooLarge) <-> 8192 < len armored.
Proof.
  split.
  - intros H. unfold Encode in H. change maxArmoredSize with 8192 in H.
    destruct (Z.ltb_spec 8192 (len armored)) as [Hlt|_]; [exact Hlt|]. exfalso.
    destruct (pem_Decode armored) as [block|]; [|discriminate].
    destruct (negb _); [discriminate|].
    destruct (parseSignatureBlob_outcomes (Bytes block)) as [[[[a h] s] E]|[E|[E|[E|E]]]];
      rewrite E in H; cbn [bind] in H; try discriminate.
    destruct (map_lookup algsToPrefix (mkAlgs a h)); discriminate.
  - intros H. apply Encode_size_ceiling_bound. exact H.
Qed.

Lemma encode_in_alphabet (d : Z) : 0 <= d < 64 -> In (RawURLEncoding.encode d) alphabet.
Proof.
  intros Hd.
  assert (Hall : forallb (fun n => existsb (Byte.eqb (RawURLEncoding.encode (Z.of_nat n)))
                                           alphabet) (seq 0 64) = true)
    by (vm_compute; reflexivity).
  rewrite forallb_forall in Hall.
  specialize (Hall (Z.to_nat d)). rewrite Z2Nat.id in Hall by lia.
  assert (Hin : In (Z.to_nat d) (seq 0 64)) by (apply in_seq; lia).
  apply Hall, existsb_exists in Hin. destruct Hin as (x & Hx & E).
  apply byte_eqb_eq in E. subst x. exact Hx.
Qed.

Lemma Encode_alphabet (l : list byte) :
  Forall (fun x => In x alphabet) (RawURLEncoding.Encode l).
Proof.
  induction l as [|a|a b|a b c l IH] using list_ind3; cbn [RawURLEncoding.Encode];
    repeat (apply Forall_cons;
            [apply encode_in_alphabet; change 63 with (Z.ones 6);
             rewrite Z.land_ones by lia; apply Z.mod_pos_bound; lia|]);
    [apply Forall_nil | apply Forall_nil | apply Forall_nil | exact IH].
Qed.

Lemma Encode_length (l : list byte) :
  Z.of_nat (List.length (RawURLEncoding.Encode l)) = (4 * Z.of_nat (List.length l) + 2) / 3.
Proof.
  induction l as [|a|a b|a b c l IH] using list_ind3;
    cbn [RawURLEncoding.Encode List.length]; try reflexivity.
  rewrite !Nat2Z.inj_succ, IH. Z.div_mod_to_equations. lia.
Qed.

(** X11.  Every token [Encode] returns is one byte of the prefix column of
    the table followed only by characters of the URL-safe alphabet: no
    padding, no line break, no [+] or [/]. *)
Theorem Encode_token_format (pem_Decode : slice -> option Block) (armored : slice)
        (tok : string) :
  Encode pem_Decode armored = Ret (Ok tok) ->
  exists c rest,
    list_byte_of_string tok = c :: rest /\
    In c (map snd algsToPrefix) /\
    Forall (fun x => In x alphabet) rest.
Proof.
  intros H. apply Encode_Ok_inv in H.
  destruct H as (_ & block & a & h & sig & c & _ & _ & _ & Hin & ->).
  exists c, (RawURLEncoding.Encode sig).
  rewrite list_byte_of_string_of_list_byte. split; [reflexivity|]. split.
  - apply (in_map snd) in Hin. exact Hin.
  - apply Encode_alphabet.
Qed.

Lemma Encode_token_format_witness :
  exists c rest,
    list_byte_of_string "eAQID" = c :: rest /\
    In c (map snd algsToPrefix) /\
    Forall (fun x => In x alphabet) rest.
Proof.
  apply (Encode_token_format (sample_unwrap sample_sig) sample_armored "eAQID").
  vm_compute. reflexivity.
Defined.

(** X12.  The length of the token is fixed by the number of signature
    bytes the envelope parses to: one prefix byte and the unpadded base64
    length, [1 + (4 n + 2) / 3] for [n] bytes.  In particular the token is a
    single byte exactly when the signature is empty. *)
Theorem Encode_token_length (pem_Decode : slice -> option Block) (armored : slice)
        (block : Block) (a h : string) (sig : slice) (tok : string) :
  pem_Decode armored = Some block ->
  parseSignatureBlob (Bytes block) = Ret (Ok (a, h, sig)) ->
  Encode pem_Decode armored = Ret (Ok tok) ->
  strlen tok = 1 + (4 * len sig + 2) / 3.
Proof.
  intros Hpem Hparse H. apply Encode_Ok_inv in H.
  destruct H as (_ & block' & a' & h' & sig' & c & Hpem' & _ & Hparse' & _ & ->).
  rewrite Hpem in Hpem'. injection Hpem' as <-.
  rewrite Hparse in Hparse'. injection Hparse' as <- <- ->.
  unfold strlen. rewrite list_byte_of_string_of_list_byte.
  cbn [List.length]. rewrite Nat2Z.inj_succ, Encode_length, len_Some. lia.
Qed.

Lemma Encode_token_length_witness :
  strlen "eAQID" = 1 + (4 * len (Some sample_sig) + 2) / 3.
Proof.
  apply (Encode_token_length (sample_unwrap sample_sig) sample_armored
           (sample_block sample_sig) "ssh-ed25519" "sha512" (Some sample_sig) "eAQID");
    vm_compute; reflexivity.
Defined.

(** * Further properties of [Decode] *)

Lemma string_cases (s : string) :
  strlen s < 2 \/ exists c c1 l, s = string_of_list_byte (c :: c1 :: l).
Proof.
  pose proof (string_of_list_byte_of_string s) as E. unfold strlen.
  destruct (list_byte_of_string s) as [|c [|c1 l]]; cbn [List.length];
    [left; lia | left; lia |].
  right. exists c, c1, l. symmetry. exact E.
Qed.

Lemma Decode_short (s : string) : strlen s < 2 -> Decode s = Ret (Err ErrTooShort).
Proof.
  intros H. unfold Decode. destruct (Z.ltb_spec (strlen s) 2); [reflexivity | lia].
Qed.

Lemma strlen_bytes (l : list byte) :
  strlen (string_of_list_byte l) = Z.of_nat (List.length l).
Proof. unfold strlen. rewrite list_byte_of_string_of_list_byte. reflexivity. Qed.

Lemma str_index_0 (c : byte) (l : list byte) :
  str_index (string_of_list_byte (c :: l)) 0 = Ret c.
Proof.
  unfold str_index. rewrite strlen_bytes, list_byte_of_string_of_list_byte.
  cbn [List.length].
  replace ((0 <? 0) || (Z.of_nat (S (List.length l)) <=? 0)) with false
    by (symmetry; apply orb_false_iff; split; [reflexivity | apply Z.leb_gt; lia]).
  reflexivity.
Qed.

(** [Decode] on a token of two bytes or more whose first byte is read
    through the table. *)
Lemma Decode_cons2_rows (c c1 : byte) (l : list byte) :
  Decode (string_of_list_byte (c :: c1 :: l)) =
  match row_of algsToPrefix c with
  | Some k =>
      match RawURLEncoding.decode (c1 :: l) 0 [] with
      | inl e => Ret (Err (ErrDecodeSignature e))
      | inr sigBytes => Ret (Ok (k, Some sigBytes))
      end
  | None => Ret (Err (ErrUnknownPrefix c))
  end.
Proof.
  rewrite Decode_cons2.
  destruct (row_of algsToPrefix c) as [k|] eqn:E; [|reflexivity].
  apply row_of_Some in E. rewrite (proj2 (rows_wellformed k c E)). reflexivity.
Qed.

(** X13.  [Decode] returns on every string, never panicking; it returns a
    pair with signature bytes or one of its three errors: too short, unknown
    prefix (naming the first byte), or the base64 error. *)
Theorem Decode_outcomes (s : string) :
  (exists a sig, Decode s = Ret (Ok (a, Some sig))) \/
  Decode s = Ret (Err ErrTooShort) \/
  (exists c, str_index s 0 = Ret c /\ Decode s = Ret (Err (ErrUnknownPrefix c))) \/
  (exists e, Decode s = Ret (Err (ErrDecodeSignature e))).
Proof.
  destruct (string_cases s) as [H|(c & c1 & l & ->)].
  - right. left. apply Decode_short, H.
  - rewrite Decode_cons2_rows, str_index_0.
    destruct (row_of algsToPrefix c) as [k|]; [|right; right; left; eauto].
    destruct (RawURLEncoding.decode (c1 :: l) 0 []) as [e|sig].
    + right. right. right. eauto.
    + left. eauto.
Qed.

(** X14.  The too-short error is raised exactly on strings of fewer than
    two bytes: the empty string and every one-byte string, a lone prefix
    included. *)
Theorem Decode_too_short_iff (s : string) :
  Decode s = Ret (Err ErrTooShort) <-> strlen s < 2.
Proof.
  split; [|apply Decode_short].
  intros H. destruct (string_cases s) as [Hs|(c & c1 & l & ->)]; [exact Hs|].
  exfalso. rewrite Decode_cons2_rows in H.
  destruct (row_of algsToPrefix c); [|discriminate].
  destruct (RawURLEncoding.decode (c1 :: l) 0 []); discriminate.
Qed.

(** X15.  The unknown-prefix error is raised exactly on strings of two
    bytes or more whose first byte is on no row of the table, and it names
    that byte; what follows the first byte plays no part, so the prefix is
    checked before the base64 text. *)
Theorem Decode_unknown_prefix_iff (s : string) (c : byte) :
  Decode s = Ret (Err (ErrUnknownPrefix c)) <->
  2 <= strlen s /\ str_index s 0 = Ret c /\ forall k, ~ In (k, c) algsToPrefix.
Proof.
  destruct (string_cases s) as [Hs|(c0 & c1 & l & ->)].
  - rewrite (Decode_short s Hs). split; [discriminate | lia].
  - rewrite Decode_cons2_rows, str_index_0, strlen_bytes. cbn [List.length].
    destruct (row_of algsToPrefix c0) as [k|] eqn:E.
    + split.
      * destruct (RawURLEncoding.decode (c1 :: l) 0 []); discriminate.
      * intros (_ & [= ->] & Hno). exfalso. apply (Hno k). apply row_of_Some, E.
    + split.
      * intros [= ->]. split; [lia|]. split; [reflexivity|]. apply row_of_None, E.
      * intros (_ & [= ->] & _). reflexivity.
Qed.

Lemma Decode_bytes (c : byte) (rest : list byte) :
  rest <> [] ->
  Decode (string_of_list_byte (c :: rest)) =
  match row_of algsToPrefix c with
  | Some k =>
      match RawURLEncoding.decode rest 0 [] with
      | inl e => Ret (Err (ErrDecodeSignature e))
      | inr sigBytes => Ret (Ok (k, Some sigBytes))
      end
  | None => Ret (Err (ErrUnknownPrefix c))
  end.
Proof.
  destruct rest as [|c1 l]; [contradiction|]. intros _. apply Decode_cons2_rows.
Qed.

(** X16.  [Decode] only ever returns pairs of the table: the pair it
    returns is the one the forward lookup sends to the first byte of the
    token, and the signature slice next to it is not nil. *)
Theorem Decode_returns_table_pairs (s : string) (a : Algs) (sig : slice) :
  Decode s = Ret (Ok (a, sig)) ->
  exists c,
    str_index s 0 = Ret c /\
    In (a, c) algsToPrefix /\
    map_lookup algsToPrefix a = Some c /\
    is_nil sig = false.
Proof.
  intros H. destruct (string_cases s) as [Hs|(c & c1 & l & ->)].
  - rewrite (Decode_short s Hs) in H. discriminate.
  - rewrite Decode_cons2_rows in H. rewrite str_index_0. exists c.
    destruct (row_of algsToPrefix c) as [k|] eqn:E; [|discriminate].
    destruct (RawURLEncoding.decode (c1 :: l) 0 []) as [e|bytes]; [discriminate|].
    injection H as <- <-. apply row_of_Some in E.
    split; [reflexivity|]. split; [exact E|]. split; [|reflexivity].
    apply map_lookup_rows, E.
Qed.

Lemma Decode_returns_table_pairs_witness :
  exists c,
    str_index "eAQID" 0 = Ret c /\
    In (mkAlgs "ssh-ed25519" "sha512", c) algsToPrefix /\
    map_lookup algsToPrefix (mkAlgs "ssh-ed25519" "sha512") = Some c /\
    is_nil (Some sample_sig) = false.
Proof.
  apply (Decode_returns_table_pairs "eAQID"). vm_compute. reflexivity.
Defined.

(** X17.  Whatever token a non-empty signature was decoded from, building
    the token again from the decoded pair and bytes (the prefix of the pair,
    then the unpadded base64 of the bytes) gives a token that decodes to the
    same pair and bytes. *)
Theorem Decode_then_rebuild (s : string) (a : Algs) (b : byte) (l : list byte) :
  Decode s = Ret (Ok (a, Some (b :: l))) ->
  exists c,
    map_lookup algsToPrefix a = Some c /\
    Decode (String.append (string_of_rune c)
                          (RawURLEncoding.EncodeToString (Some (b :: l))))
    = Ret (Ok (a, Some (b :: l))).
Proof.
  intros H.
  destruct (string_cases s) as [Hs|(c & c1 & l' & ->)].
  - rewrite (Decode_short s Hs) in H. discriminate.
  - rewrite Decode_cons2_rows in H. exists c.
    destruct (row_of algsToPrefix c) as [k|] eqn:E; [|discriminate].
    destruct (RawURLEncoding.decode (c1 :: l') 0 []) as [e|bytes]; [discriminate|].
    injection H as Hk Hb. subst k bytes. apply row_of_Some in E.
    split; [apply map_lookup_rows, E | apply Decode_token, E].
Qed.

Lemma Decode_then_rebuild_witness :
  exists c,
    map_lookup algsToPrefix (mkAlgs "ssh-ed25519" "sha512") = Some c /\
    Decode (String.append (string_of_rune c)
                          (RawURLEncoding.EncodeToString (Some [x01])))
    = Ret (Ok (mkAlgs "ssh-ed25519" "sha512", Some [x01])).
Proof.
  apply (Decode_then_rebuild "eAR"). vm_compute. reflexivity.
Defined.

Lemma decodeMap_alphabet (c : byte) :
  (RawURLEncoding.decodeMap c =? 255) = negb (existsb (Byte.eqb c) alphabet).
Proof. destruct c; vm_compute; reflexivity. Qed.

Lemma decode_foreign (l2 : list byte) (x : byte) :
  foreign x = true ->
  forall (l1 : list byte) (si : Z) (dbuf : list Z),
    Forall (fun y => foreign y = false) l1 ->
    RawURLEncoding.decode (l1 ++ x :: l2) si dbuf
    = inl (base64.CorruptInput (si + Z.of_nat (List.length l1))).
Proof.
  intros Hx. unfold foreign in Hx. apply andb_true_iff in Hx. destruct Hx as [Hxa Hxs].
  induction l1 as [|y l1 IH]; intros si dbuf Hall.
  - cbn [app RawURLEncoding.decode List.length]. rewrite decodeMap_alphabet, Hxa.
    cbn [negb]. unfold skipped_char in Hxs. apply negb_true_iff in Hxs. rewrite Hxs.
    f_equal. f_equal. lia.
  - inversion Hall as [|? ? Hy Hall']; subst.
    cbn [app RawURLEncoding.decode List.length].
    replace (si + Z.of_nat (S (List.length l1)))
      with (si + 1 + Z.of_nat (List.length l1)) by lia.
    destruct (negb (RawURLEncoding.decodeMap y =? 255)) eqn:Ed.
    + destruct (List.length (dbuf ++ [RawURLEncoding.decodeMap y]) =? 4)%nat.
      * rewrite IH by assumption. reflexivity.
      * apply IH. assumption.
    + rewrite decodeMap_alphabet, negb_involutive in Ed.
      unfold foreign in Hy. rewrite Ed in Hy. cbn [negb andb] in Hy.
      apply negb_false_iff in Hy. unfold skipped_char in Hy. rewrite Hy.
      apply IH. assumption.
Qed.

(** X18.  A token with a known prefix whose text holds a character that is
    neither of the URL-safe alphabet nor a line break is rejected with the
    base64 error at the offset of the first such character, counted from
    the byte after the prefix: padded tokens and tokens in the standard
    alphabet with [+] or [/] do not decode. *)
Theorem Decode_rejects_foreign_characters (k : Algs) (c x : byte) (l1 l2 : list byte) :
  In (k, c) algsToPrefix ->
  Forall (fun y => foreign y = false) l1 ->
  foreign x = true ->
  Decode (string_of_list_byte (c :: l1 ++ x :: l2))
  = Ret (Err (ErrDecodeSignature (base64.CorruptInput (Z.of_nat (List.length l1))))).
Proof.
  intros Hin Hall Hx.
  rewrite Decode_bytes by (destruct l1; discriminate).
  rewrite (row_of_In k c Hin), (decode_foreign l2 x Hx l1 0 [] Hall). reflexivity.
Qed.

Lemma Decode_rejects_foreign_characters_witness :
  Decode (string_of_list_byte ("e"%byte :: bs "AQI" ++ "="%byte :: bs ""))
  = Ret (Err (ErrDecodeSignature (base64.CorruptInput (Z.of_nat (List.length (bs "AQI")))))).
Proof.
  apply (Decode_rejects_foreign_characters (mkAlgs "ssh-ed25519" "sha512")).
  - left. reflexivity.
  - repeat constructor.
  - reflexivity.
Defined.

Lemma decode_offset (src : list byte) :
  forall (si si' : Z) (dbuf : list Z) (res : list byte),
    RawURLEncoding.decode src si dbuf = inr res ->
    RawURLEncoding.decode src si' dbuf = inr res.
Proof.
  induction src as [|y src IH]; intros si si' dbuf res H.
  - cbn [RawURLEncoding.decode] in *.
    destruct dbuf as [|d0 [|d1 dbuf]]; [exact H | discriminate | exact H].
  - cbn [RawURLEncoding.decode] in *.
    destruct (negb (RawURLEncoding.decodeMap y =? 255)).
    + destruct (List.length (dbuf ++ [RawURLEncoding.decodeMap y]) =? 4)%nat.
      * destruct (RawURLEncoding.decode src (si + 1) []) as [e|r] eqn:E;
          [discriminate|].
        rewrite (IH _ (si' + 1) _ _ E). exact H.
      * exact (IH _ _ _ _ H).
    + destruct (Byte.eqb y "010" || Byte.eqb y "013"); [|discriminate].
      exact (IH _ _ _ _ H).
Qed.

Lemma skipped_char_decodeMap (nl : byte) :
  skipped_char nl = true -> negb (RawURLEncoding.decodeMap nl =? 255) = false.
Proof. destruct nl; try discriminate; reflexivity. Qed.

Lemma decode_insert_skipped (nl : byte) (l2 : list byte) :
  skipped_char nl = true ->
  forall (l1 : list byte) (si : Z) (dbuf : list Z) (res : list byte),
    RawURLEncoding.decode (l1 ++ l2) si dbuf = inr res ->
    RawURLEncoding.decode (l1 ++ nl :: l2) si dbuf = inr res.
Proof.
  intros Hnl. induction l1 as [|y l1 IH]; intros si dbuf res H.
  - cbn [app] in *. cbn [RawURLEncoding.decode].
    rewrite (skipped_char_decodeMap nl Hnl).
    unfold skipped_char in Hnl. rewrite Hnl.
    exact (decode_offset _ _ _ _ _ H).
  - cbn [app RawURLEncoding.decode] in *.
    destruct (negb (RawURLEncoding.decodeMap y =? 255)).
    + destruct (List.length (dbuf ++ [RawURLEncoding.decodeMap y]) =? 4)%nat.
      * destruct (RawURLEncoding.decode (l1 ++ l2) (si + 1) []) as [e|r] eqn:E;
          [discriminate|].
        rewrite (IH _ _ _ E). exact H.
      * exact (IH _ _ _ H).
    + destruct (Byte.eqb y "010" || Byte.eqb y "013"); [|discriminate].
      exact (IH _ _ _ H).
Qed.

(** X19.  Tokens are not unique: a line feed or carriage return put
    anywhere after the prefix of a token that decodes gives another string
    that decodes to the same pair and the same signature bytes. *)
Theorem Decode_skips_line_breaks (c nl : byte) (l1 l2 : list byte)
        (r : Algs * slice) :
  skipped_char nl = true ->
  Decode (string_of_list_byte (c :: l1 ++ l2)) = Ret (Ok r) ->
  Decode (string_of_list_byte (c :: l1 ++ nl :: l2)) = Ret (Ok r).
Proof.
  intros Hnl H.
  assert (Hne : l1 ++ l2 <> []).
  { intros E. rewrite E in H. vm_compute in H. discriminate. }
  rewrite Decode_bytes in H by exact Hne.
  rewrite Decode_bytes by (destruct l1; discriminate).
  destruct (row_of algsToPrefix c) as [k|]; [|discriminate].
  destruct (RawURLEncoding.decode (l1 ++ l2) 0 []) as [e|bytes] eqn:E; [discriminate|].
  rewrite (decode_insert_skipped nl l2 Hnl l1 0 [] bytes E). exact H.
Qed.

Lemma Decode_skips_line_breaks_witness :
  Decode (string_of_list_byte ("e"%byte :: bs "AQ" ++ "010"%byte :: bs "ID"))
  = Ret (Ok (mkAlgs "ssh-ed25519" "sha512", Some sample_sig)).
Proof.
  apply (Decode_skips_line_breaks "e"%byte "010"%byte (bs "AQ") (bs "ID")).
  - reflexivity.
  - vm_compute. reflexivity.
Defined.

(** * Further properties of the registry *)

(** X20.  The table [init] builds is the inverse of the forward map: the
    forward lookup sends a pair to a byte exactly when the table holds that
    pair at that byte, the zero pair standing for "no entry". *)
Theorem registry_inverse (a : Algs) (c : byte) :
  map_lookup algsToPrefix a = Some c <->
  array_get PrefixToAlgs c = Ret a /\ a <> zeroAlgs.
Proof.
  rewrite array_get_PrefixToAlgs. split.
  - intros H. apply map_lookup_In in H.
    rewrite (row_of_In a c H). split; [reflexivity|].
    intros ->. destruct (rows_wellformed _ _ H) as [_ Hs]. discriminate.
  - intros [H Hnz].
    destruct (row_of algsToPrefix c) as [k|] eqn:E.
    + injection H as ->. apply map_lookup_rows, row_of_Some, E.
    + injection H as <-. contradiction.
Qed.

(** X21.  Go ranges over a map in an order of its choosing.  Whatever the
    order in which [init] meets the rows of [algsToPrefix], it runs without
    a panic and leaves the same table [PrefixToAlgs]. *)
Theorem init_any_order (m : list (Algs * byte)) :
  Permutation algsToPrefix m -> init_range m zeroTable = Ret PrefixToAlgs.
Proof.
  intros HP. rewrite <- (init_range_order _ _ HP prefixes_NoDup).
  exact init_PrefixToAlgs.
Qed.

Lemma init_any_order_witness :
  init_range (rev algsToPrefix) zeroTable = Ret PrefixToAlgs.
Proof.
  apply (init_any_order (rev algsToPrefix)). apply Permutation_rev.
Defined.

(** * The command *)

(** X22.  On every input the command ends without a panic, in one of two
    ways: with exit status 0, nothing on standard error, and on standard
    output exactly the token [Encode] returns for the bytes read (a table
    prefix, then characters of the URL-safe alphabet, with no line break
    after it); or with exit status 1, an error for standard error, and
    nothing on standard output. *)
Theorem main_outcomes (E : Type) (pem_Decode : slice -> option Block) (ReadAll : E + slice) :
  (exists input tok c rest,
      ReadAll = inr input /\
      Encode pem_Decode input = Ret (Ok tok) /\
      main pem_Decode ReadAll = Ret (tok, None, 0) /\
      list_byte_of_string tok = c :: rest /\
      In c (map snd algsToPrefix) /\
      Forall (fun x => In x alphabet) rest) \/
  (exists e, main pem_Decode ReadAll = Ret (EmptyString, Some e, 1) /\
             ((exists e', ReadAll = inl e' /\ e = ErrReadingStdin e') \/
              (exists input e', ReadAll = inr input /\
                                Encode pem_Decode input = Ret (Err e') /\
                                e = ErrEncode e'))).
Proof.
  unfold main, run. destruct ReadAll as [e|input].
  - right. exists (ErrReadingStdin e). split; [reflexivity|]. left. eauto.
  - destruct (Encode_outcomes pem_Decode input) as [[tok H]|(e & H & _)].
    + left. destruct (Encode_token_format _ _ _ H) as (c & rest & Hb & Hc & Hr).
      exists input, tok, c, rest. rewrite H. cbn [bind]. auto 10.
    + right. exists (ErrEncode e). rewrite H. cbn [bind].
      split; [reflexivity|]. right. eauto.
Qed.
